(** * dxlibv3: the application orchestrator ([app/app.go]) and the SQL
    identifier utilities ([utils]).

    The orchestrator is embedded as state-passing code over a [World] that
    holds the process-wide [App] value and the trace of every call that
    leaves the package (manager methods, hooks, the logger, the error
    group).  The utilities are embedded over byte strings, with Go's
    [strings.ToLower], [strings.ToUpper] and [strings.Trim] spelled out. *)

From Stdlib Require Import ZArith Ascii String.
From stdpp Require Import gmap strings list fin_maps.

Local Open Scope string_scope.

(* ===================================================================== *)
(** * Package [app] *)
(* ===================================================================== *)

Module App.

(** A Go [error] value is identified with its message; [None] is [nil]. *)
Definition error := string.

(** The manager methods that [start] and [Stop] call. *)
Inductive Call :=
| ConfigurationsLoad              (* configurations.Manager.Load() *)
| RedisLoadFromConfiguration      (* redis.Manager.LoadFromConfiguration("redis") *)
| DatabasesLoadFromConfiguration  (* databases.Manager.LoadFromConfiguration("storage") *)
| RedisConnectAllAtStart          (* redis.Manager.ConnectAllAtStart() *)
| DatabasesConnectAllAtStart      (* databases.Manager.ConnectAllAtStart(`storage`) *)
| TablesConnectAll                (* tables.Manager.ConnectAll() *)
| ApiStartAll                     (* api.Manager.StartAll(group, ctx) *)
| TasksStartAll                   (* tasks.Manager.StartAll(group, ctx) *)
| TasksStopAll                    (* tasks.Manager.StopAll() *)
| ApiStopAll                      (* api.Manager.StopAll() *)
| RedisDisconnectAll              (* redis.Manager.DisconnectAll() *)
| DatabasesDisconnectAll.         (* databases.Manager.DisconnectAll() *)

#[global] Instance Call_eq_dec : EqDecision Call.
Proof. solve_decision. Defined.

(** The six hook fields of [DXApp]. *)
Inductive Hook :=
| HOnDefine | HOnDefineConfiguration | HOnDefineAPI
| HOnExecute | HOnStartStorageReady | HOnStopping.

#[global] Instance Hook_eq_dec : EqDecision Hook.
Proof. solve_decision. Defined.

Inductive Level := LInfo | LError.

#[global] Instance Level_eq_dec : EqDecision Level.
Proof. solve_decision. Defined.

(** What the package does to the outside, in program order.  A call is
    recorded together with the error it returned. *)
Inductive Event :=
| EManager (c : Call) (r : option error)
| EHook (h : Hook) (r : option error)
| ELog (l : Level) (msg : string)
| EWithContext                    (* errgroup.WithContext(core.RootContext) *)
| EWait (r : option error)        (* a.RuntimeErrorGroup.Wait() *)
| ERootContextCancel.             (* core.RootContextCancel() *)

#[global] Instance Event_eq_dec : EqDecision Event.
Proof. solve_decision. Defined.

(** [DXAppEvent]: a nil-able [func() (err error)].  A hook that is set is a
    function of the calls made so far; it acts on the orchestrator only
    through the error it returns. *)
Definition DXAppEvent := option (list Event -> option error).

(** [DXApp], without [Args] and the two error-group handles, which hold
    nothing that [Run], [start], [Stop] or [execute] read. *)
Record DXApp := mkDXApp {
  nameId : string;
  Title : string;
  Description : string;
  Version : string;
  IsLoop : bool;
  IsRedisExist : bool;
  IsStorageExist : bool;
  IsAPIExist : bool;
  IsTaskExist : bool;
  DebugKey : string;
  IsDebug : bool;
  OnDefine : DXAppEvent;
  OnDefineConfiguration : DXAppEvent;
  OnDefineAPI : DXAppEvent;
  OnExecute : DXAppEvent;
  OnStartStorageReady : DXAppEvent;
  OnStopping : DXAppEvent
}.

(** [init]: the zero value (empty registries, [IsDebug: false]). *)
Definition init : DXApp :=
  mkDXApp "" "" "" "" false false false false false "" false
          None None None None None None.

Definition set_IsRedisExist (b : bool) (a : DXApp) : DXApp :=
  mkDXApp (nameId a) (Title a) (Description a) (Version a) (IsLoop a)
          b (IsStorageExist a) (IsAPIExist a) (IsTaskExist a)
          (DebugKey a) (IsDebug a) (OnDefine a) (OnDefineConfiguration a)
          (OnDefineAPI a) (OnExecute a) (OnStartStorageReady a) (OnStopping a).

Definition set_IsStorageExist (b : bool) (a : DXApp) : DXApp :=
  mkDXApp (nameId a) (Title a) (Description a) (Version a) (IsLoop a)
          (IsRedisExist a) b (IsAPIExist a) (IsTaskExist a)
          (DebugKey a) (IsDebug a) (OnDefine a) (OnDefineConfiguration a)
          (OnDefineAPI a) (OnExecute a) (OnStartStorageReady a) (OnStopping a).

Definition set_IsAPIExist (b : bool) (a : DXApp) : DXApp :=
  mkDXApp (nameId a) (Title a) (Description a) (Version a) (IsLoop a)
          (IsRedisExist a) (IsStorageExist a) b (IsTaskExist a)
          (DebugKey a) (IsDebug a) (OnDefine a) (OnDefineConfiguration a)
          (OnDefineAPI a) (OnExecute a) (OnStartStorageReady a) (OnStopping a).

Definition set_IsTaskExist (b : bool) (a : DXApp) : DXApp :=
  mkDXApp (nameId a) (Title a) (Description a) (Version a) (IsLoop a)
          (IsRedisExist a) (IsStorageExist a) (IsAPIExist a) b
          (DebugKey a) (IsDebug a) (OnDefine a) (OnDefineConfiguration a)
          (OnDefineAPI a) (OnExecute a) (OnStartStorageReady a) (OnStopping a).

(** The collaborators outside the package.  [Configurations] is the map of
    [configurations.Manager] once [Load] has returned, of which only the keys
    are read; a manager method and [Wait] answer as a function of the calls
    made so far; [Getenv] is [os.Getenv]. *)
Record Collaborators := mkCollaborators {
  Configurations : gmap string unit;
  manager : list Event -> Call -> option error;
  Wait : list Event -> option error;
  Getenv : string -> string
}.

(** The package-level state: [App], [v3.AppNameId], [log.Log.Prefix], and
    the trace. *)
Record World := mkWorld {
  app : DXApp;
  AppNameId : string;
  LogPrefix : string;
  trace : list Event
}.

Definition M (A : Type) : Type := World -> A * World.

Definition ret {A} (x : A) : M A := fun w => (x, w).

Definition bind {A B} (m : M A) (k : A -> M B) : M B :=
  fun w => let (x, w') := m w in k x w'.

#[global] Instance M_ret : MRet M := @ret.
#[global] Instance M_bind : MBind M := fun A B k m => bind m k.

(** [err = m(); if err != nil { return err }; k] *)
Definition failfast (m k : M (option error)) : M (option error) :=
  err ← m;
  match err with
  | Some e => ret (Some e)
  | None => k
  end.

Notation "'attempt' m ; k" := (failfast m k)
  (at level 20, m at level 100, k at level 200, only parsing).

Definition emit (e : Event) : M unit :=
  fun w => (tt, mkWorld (app w) (AppNameId w) (LogPrefix w) (trace w ++ [e])).

Definition get_app : M DXApp := fun w => (app w, w).

Definition modify_app (f : DXApp -> DXApp) : M unit :=
  fun w => (tt, mkWorld (f (app w)) (AppNameId w) (LogPrefix w) (trace w)).

Definition log_Info (msg : string) : M unit := emit (ELog LInfo msg).
Definition log_Error (msg : string) : M unit := emit (ELog LError msg).

Section Orchestrator.

Variable env : Collaborators.

(** A manager method: ask the collaborator, record call and answer. *)
Definition call (c : Call) : M (option error) :=
  fun w => let r := manager env (trace w) c in
           (r, mkWorld (app w) (AppNameId w) (LogPrefix w)
                       (trace w ++ [EManager c r])).

(** [f()] for a hook [f] known to be non-nil. *)
Definition invoke (h : Hook) (f : list Event -> option error) : M (option error) :=
  fun w => let r := f (trace w) in
           (r, mkWorld (app w) (AppNameId w) (LogPrefix w)
                       (trace w ++ [EHook h r])).

(** [a.RuntimeErrorGroup.Wait()] *)
Definition group_Wait : M (option error) :=
  fun w => let r := Wait env (trace w) in
           (r, mkWorld (app w) (AppNameId w) (LogPrefix w)
                       (trace w ++ [EWait r])).

(** [_, ok = configurations.Manager.Configurations[name]] *)
Definition section_exists (name : string) : bool :=
  bool_decide (is_Some (Configurations env !! name)).

Definition start : M (option error) :=
  a ← get_app;
  log_Info (Title a +:+ " " +:+ Version a +:+ " " +:+ Description a);;
  attempt call ConfigurationsLoad;
  modify_app (set_IsRedisExist (section_exists "redis")) ;;
  a ← get_app;
  attempt (if IsRedisExist a then call RedisLoadFromConfiguration else ret None);
  modify_app (set_IsStorageExist (section_exists "storage")) ;;
  a ← get_app;
  attempt (if IsStorageExist a then call DatabasesLoadFromConfiguration else ret None);
  modify_app (set_IsAPIExist (section_exists "api")) ;;
  a ← get_app;
  attempt (if IsRedisExist a then call RedisConnectAllAtStart else ret None);
  a ← get_app;
  attempt (if IsStorageExist a then
           attempt call DatabasesConnectAllAtStart;
           attempt call TablesConnectAll;
           match OnStartStorageReady a with
           | Some f => invoke HOnStartStorageReady f
           | None => ret None
           end
         else ret None);
  a ← get_app;
  attempt (if IsAPIExist a then call ApiStartAll else ret None);
  modify_app (set_IsTaskExist (section_exists "tasks")) ;;
  a ← get_app;
  attempt (if IsTaskExist a then call TasksStartAll else ret None);
  ret None.

Definition Stop : M (option error) :=
  log_Info "Stopping" ;;
  a ← get_app;
  match OnStopping a with
  | Some f => invoke HOnStopping f ;; ret tt   (* the result is dropped *)
  | None => ret tt
  end ;;
  a ← get_app;
  attempt (if IsTaskExist a then call TasksStopAll else ret None);
  a ← get_app;
  attempt (if IsAPIExist a then call ApiStopAll else ret None);
  a ← get_app;
  attempt (if IsRedisExist a then call RedisDisconnectAll else ret None);
  a ← get_app;
  attempt (if IsStorageExist a then call DatabasesDisconnectAll else ret None);
  log_Info "Stopped" ;;
  ret None.

(** The functions a [defer] statement of [execute] can push. *)
Inductive Deferred :=
| DeferRootContextCancel    (* defer core.RootContextCancel() *)
| DeferStop.                (* defer func() { err2 := a.Stop(); ... }() *)

Definition run_deferred_one (d : Deferred) : M unit :=
  match d with
  | DeferRootContextCancel => emit ERootContextCancel
  | DeferStop =>
      err2 ← Stop;
      match err2 with
      | Some e2 => log_Info ("Error in Stopping: (" +:+ e2 +:+ ")")
      | None => ret tt
      end
  end.

(** The stack of deferred calls, most recent first, run at return. *)
Fixpoint run_deferred (ds : list Deferred) : M unit :=
  match ds with
  | [] => ret tt
  | d :: ds' => run_deferred_one d ;; run_deferred ds'
  end.

(** [execute] from the [OnExecute] hook on: the hook, then [Wait]. *)
Definition execute_run : M (option error) :=
  a ← get_app;
  attempt (match OnExecute a with
         | Some f =>
             err ← invoke HOnExecute f;
             match err with
             | Some e => log_Info ("onExecute error (" +:+ e +:+ ")") ;; ret (Some e)
             | None => ret None
             end
         | None => ret None
         end);
  a ← get_app;
  attempt (if IsLoop a then
           log_Info "Waiting..." ;;
           err ← group_Wait;
           match err with
           | Some e => log_Info ("Exit reason: " +:+ e) ;; ret (Some e)
           | None => ret None
           end
         else ret None);
  ret None.

(** The body of [execute]: the value returned and the deferred calls
    pushed on the way, most recent first. *)
Definition execute_body : M (list Deferred * option error) :=
  let ds := [DeferRootContextCancel] in
  emit EWithContext ;;
  err ← start;
  match err with
  | Some e => ret (ds, Some e)
  | None =>
      a ← get_app;
      let ds := if IsLoop a then DeferStop :: ds else ds in
      log_Info "Starting" ;;
      err ← execute_run;
      ret (ds, err)
  end.

Definition execute : M (option error) :=
  '(ds, err) ← execute_body;
  run_deferred ds ;;
  ret err.

(** [if f != nil { err := f(); if err != nil { log; return err } }] *)
Definition define_hook (h : Hook) (f : DXAppEvent) : M (option error) :=
  match f with
  | Some f =>
      err ← invoke h f;
      match err with
      | Some e => log_Error e ;; ret (Some e)
      | None => ret None
      end
  | None => ret None
  end.

Definition Run : M (option error) :=
  a ← get_app;
  attempt define_hook HOnDefine (OnDefine a);
  a ← get_app;
  attempt define_hook HOnDefineConfiguration (OnDefineConfiguration a);
  a ← get_app;
  attempt define_hook HOnDefineAPI (OnDefineAPI a);
  err ← execute;
  match err with
  | Some e => log_Error e ;; ret (Some e)
  | None => ret None
  end.

(** [Set(nameId, title, description, isLoop, debugKey)] *)
Definition Set_ (nameId' title description : string) (isLoop : bool)
    (debugKey : string) : M unit :=
  fun w =>
    let a := app w in
    (tt, mkWorld
           (mkDXApp nameId' title description (Version a) isLoop
                    (IsRedisExist a) (IsStorageExist a) (IsAPIExist a)
                    (IsTaskExist a) debugKey
                    (bool_decide (Getenv env "DEBUG_KEY" = debugKey))
                    (OnDefine a) (OnDefineConfiguration a) (OnDefineAPI a)
                    (OnExecute a) (OnStartStorageReady a) (OnStopping a))
           nameId' nameId' (trace w)).

Definition GetNameId : M string := fun w => (nameId (app w), w).

End Orchestrator.

(** ** Reading a trace *)

(** [w] with further events recorded. *)
Definition record (w : World) (evs : list Event) : World :=
  mkWorld (app w) (AppNameId w) (LogPrefix w) (trace w ++ evs).

(** The manager methods called, in order. *)
Definition calls (evs : list Event) : list Call :=
  omap (fun e => match e with EManager c _ => Some c | _ => None end) evs.

(** The hooks invoked, in order. *)
Definition hooks (evs : list Event) : list Hook :=
  omap (fun e => match e with EHook h _ => Some h | _ => None end) evs.

(** [Stop] announces itself on the log before anything else. *)
Definition Stop_invoked (evs : list Event) : Prop :=
  ELog LInfo "Stopping" ∈ evs.

(** The errors that manager methods returned, in order. *)
Definition errors (evs : list Event) : list error :=
  omap (fun e => match e with EManager _ (Some e) => Some e | _ => None end) evs.

(** The teardown steps of [Stop] in its order (tasks, API, cache, storage),
    each with the presence flag that gates it. *)
Definition teardown_steps (a : DXApp) : list Call :=
  (if IsTaskExist a then [TasksStopAll] else []) ++
  (if IsAPIExist a then [ApiStopAll] else []) ++
  (if IsRedisExist a then [RedisDisconnectAll] else []) ++
  (if IsStorageExist a then [DatabasesDisconnectAll] else []).


(** What was recorded between [w] and a later [w']. *)
Definition events_since (w w' : World) : list Event :=
  drop (length (trace w)) (trace w').

(** The line [start] logs first: [fmt.Sprintf("%v %v %v", ...)]. *)
Definition banner (a : DXApp) : string :=
  Title a +:+ " " +:+ Version a +:+ " " +:+ Description a.

(** The calls of [start] in its order, each with the configuration section
    that gates it; [configurations.Manager.Load] is not gated. *)
Definition start_steps (env : Collaborators) : list Call :=
  [ConfigurationsLoad] ++
  (if section_exists env "redis" then [RedisLoadFromConfiguration] else []) ++
  (if section_exists env "storage" then [DatabasesLoadFromConfiguration] else []) ++
  (if section_exists env "redis" then [RedisConnectAllAtStart] else []) ++
  (if section_exists env "storage"
   then [DatabasesConnectAllAtStart; TablesConnectAll] else []) ++
  (if section_exists env "api" then [ApiStartAll] else []) ++
  (if section_exists env "tasks" then [TasksStartAll] else []).

(** The order in which [start] names its calls. *)
Definition start_sequence : list Call :=
  [ConfigurationsLoad; RedisLoadFromConfiguration;
   DatabasesLoadFromConfiguration; RedisConnectAllAtStart;
   DatabasesConnectAllAtStart; TablesConnectAll; ApiStartAll; TasksStartAll].

(** The four subsystems that are started and stopped. *)
Inductive Subsystem := Cache | Storage | API | Tasks.

#[global] Instance Subsystem_eq_dec : EqDecision Subsystem.
Proof. solve_decision. Defined.

(** The subsystem that a start or connect entry point starts. *)
Definition start_of (c : Call) : option Subsystem :=
  match c with
  | RedisConnectAllAtStart => Some Cache
  | DatabasesConnectAllAtStart => Some Storage
  | ApiStartAll => Some API
  | TasksStartAll => Some Tasks
  | _ => None
  end.

(** The subsystem that a stop or disconnect entry point stops. *)
Definition stop_of (c : Call) : option Subsystem :=
  match c with
  | TasksStopAll => Some Tasks
  | ApiStopAll => Some API
  | RedisDisconnectAll => Some Cache
  | DatabasesDisconnectAll => Some Storage
  | _ => None
  end.

(** The subsystems whose start was attempted, and those whose stop was, in
    the order of the calls. *)
Definition started (evs : list Event) : list Subsystem :=
  omap start_of (calls evs).

(** The calls on the storage side: the storage manager and its tables. *)
Definition storage_call (c : Call) : bool :=
  match c with
  | DatabasesLoadFromConfiguration | DatabasesConnectAllAtStart
  | TablesConnectAll | DatabasesDisconnectAll => true
  | _ => false
  end.

(** [c] is called in [cs] at some position before [i]. *)
Definition called_before (c : Call) (i : nat) (cs : list Call) : Prop :=
  exists j, j < i /\ cs !! j = Some c.

(** ** Concrete runs *)

(** Collaborators that never fail, over a configuration with the given
    sections; the package state before anything was recorded. *)
Definition quiet (sections : list string) : Collaborators :=
  mkCollaborators (list_to_map ((fun k => (k, tt)) <$> sections))
                  (fun _ _ => None) (fun _ => None) (fun _ => "").
Definition fresh (a : DXApp) : World := mkWorld a "" "" [].
Definition everything : Collaborators :=
  quiet ["redis"; "storage"; "api"; "tasks"].

(** Collaborators of which one manager method fails with [e]. *)
Definition failing (sections : list string) (c : Call) (e : error) : Collaborators :=
  mkCollaborators (list_to_map ((fun k => (k, tt)) <$> sections))
                  (fun _ c' => if decide (c' = c) then Some e else None)
                  (fun _ => None) (fun _ => "").


(** An application set up with [Set("svc1","Title","Desc",true,"k")]. *)
Definition looping : DXApp :=
  mkDXApp "svc1" "Title" "Desc" "" true false false false false "k" false
          None None None None None None.

(** A hook that passes and a hook that fails with [e]. *)
Definition passes : DXAppEvent := Some (fun _ => None).
Definition fails (e : error) : DXAppEvent := Some (fun _ => Some e).

(** An application with the three define-phase hooks given. *)
Definition defining (f1 f2 f3 : DXAppEvent) : DXApp :=
  mkDXApp "svc1" "Title" "Desc" "" true false false false false "k" false
          f1 f2 f3 None None None.

(** An application whose four presence flags are set and whose
    [OnStopping] hook fails. *)
Definition started_all : DXApp :=
  mkDXApp "svc1" "Title" "Desc" "" true true true true true "k" false
          None None None None None (fails "hook").

(** ** Further readings of a trace *)

(** The presence flag that gates a manager call; the configuration load is
    not gated. *)
Definition presence (c : Call) (a : DXApp) : bool :=
  match c with
  | ConfigurationsLoad => true
  | RedisLoadFromConfiguration | RedisConnectAllAtStart
  | RedisDisconnectAll => IsRedisExist a
  | DatabasesLoadFromConfiguration | DatabasesConnectAllAtStart
  | TablesConnectAll | DatabasesDisconnectAll => IsStorageExist a
  | ApiStartAll | ApiStopAll => IsAPIExist a
  | TasksStartAll | TasksStopAll => IsTaskExist a
  end.

(** The four presence flags as the configuration has the sections. *)
Definition with_presence (env : Collaborators) (a : DXApp) : DXApp :=
  set_IsTaskExist (section_exists env "tasks")
    (set_IsAPIExist (section_exists env "api")
       (set_IsStorageExist (section_exists env "storage")
          (set_IsRedisExist (section_exists env "redis") a))).

(** The six hooks in the order in which a run reaches them. *)
Definition hook_sequence : list Hook :=
  [HOnDefine; HOnDefineConfiguration; HOnDefineAPI;
   HOnStartStorageReady; HOnExecute; HOnStopping].

(** The error group was waited for. *)
Definition Wait_invoked (evs : list Event) : Prop :=
  exists r, EWait r ∈ evs.

(** The two events that bracket [execute]. *)
Definition bracket (e : Event) : bool :=
  match e with
  | EWithContext | ERootContextCancel => true
  | _ => false
  end.

(** An application that runs once: [IsLoop] false. *)
Definition once : DXApp :=
  mkDXApp "svc1" "Title" "Desc" "" false false false false false "k" false
          None None None None None None.

(** Applications with an [OnExecute] hook that fails. *)
Definition looping_OnExecute_fails : DXApp :=
  mkDXApp "svc1" "Title" "Desc" "" true false false false false "k" false
          None None None (fails "work") None None.

(** An application with all six hooks set and passing. *)
Definition hooked : DXApp :=
  mkDXApp "svc1" "Title" "Desc" "" true false false false false "k" false
          passes passes passes passes passes passes.

(** The events that [start], the rest of [execute], and [Stop] can record. *)
Definition from_start (e : Event) : bool :=
  match e with
  | ELog LInfo _ | EHook HOnStartStorageReady _ => true
  | EManager c _ => bool_decide (c ∈ start_sequence)
  | _ => false
  end.

Definition from_run (e : Event) : bool :=
  match e with
  | ELog LInfo _ | EHook HOnExecute _ | EWait _ => true
  | _ => false
  end.

Definition from_Stop (e : Event) : bool :=
  match e with
  | ELog LInfo _ | EHook HOnStopping _ => true
  | EManager c _ => bool_decide (is_Some (stop_of c))
  | _ => false
  end.

(** An event of one of the three, none of which brackets [execute]. *)
Definition inner (e : Event) : bool :=
  from_start e || from_run e || from_Stop e.

End App.

(* ===================================================================== *)
(** * Go's [unicode], [unicode/utf8] and [strings], as far as [utils]
      calls them *)
(* ===================================================================== *)

(** A Go [string] is a sequence of bytes: Rocq's [string].  The functions
    below follow the Go standard library: [strings.ToLower] and
    [strings.ToUpper] work byte by byte on a string of ASCII bytes and rune
    by rune (UTF-8 decoded, mapped, encoded again) on any other. *)

Module Unicode.

Local Open Scope Z_scope.

Definition rune := Z.

Definition MaxRune : rune := 0x10FFFF.
Definition ReplacementChar : rune := 0xFFFD.
Definition MaxASCII : rune := 0x7F.

Definition UpperCase : nat := 0.
Definition LowerCase : nat := 1.
Definition TitleCase : nat := 2.

(** [unicode.CaseRange]: for the code points [Lo..Hi], the distance to the
    upper, lower and title case form. *)
Record CaseRange := mkCaseRange {
  Lo : rune;
  Hi : rune;
  Delta : list rune
}.

Definition UpperLower : rune := MaxRune + 1.

(** The entries of [unicode.CaseRanges] for the code points up to U+017F
    (Basic Latin, Latin-1 Supplement, Latin Extended-A), in the table's
    order.  Code points above U+017F are outside this development. *)
Definition CaseRanges : list CaseRange :=
  [ mkCaseRange 0x0041 0x005A [0; 32; 0];
    mkCaseRange 0x0061 0x007A [-32; 0; -32];
    mkCaseRange 0x00B5 0x00B5 [743; 0; 743];
    mkCaseRange 0x00C0 0x00D6 [0; 32; 0];
    mkCaseRange 0x00D8 0x00DE [0; 32; 0];
    mkCaseRange 0x00E0 0x00F6 [-32; 0; -32];
    mkCaseRange 0x00F8 0x00FE [-32; 0; -32];
    mkCaseRange 0x00FF 0x00FF [121; 0; 121];
    mkCaseRange 0x0100 0x012F [UpperLower; UpperLower; UpperLower];
    mkCaseRange 0x0130 0x0130 [0; -199; 0];
    mkCaseRange 0x0131 0x0131 [-232; 0; -232];
    mkCaseRange 0x0132 0x0137 [UpperLower; UpperLower; UpperLower];
    mkCaseRange 0x0139 0x0148 [UpperLower; UpperLower; UpperLower];
    mkCaseRange 0x014A 0x0177 [UpperLower; UpperLower; UpperLower];
    mkCaseRange 0x0178 0x0178 [0; -121; 0];
    mkCaseRange 0x0179 0x017E [UpperLower; UpperLower; UpperLower];
    mkCaseRange 0x017F 0x017F [-300; 0; -300] ].

(** [unicode.to]: the range that holds [r] decides; the table is sorted and
    its ranges are disjoint, so the search is written first-match. *)
Fixpoint to (_case : nat) (r : rune) (caseRange : list CaseRange) : rune :=
  match caseRange with
  | [] => r
  | cr :: rest =>
      if (Lo cr <=? r) && (r <=? Hi cr) then
        let delta := nth _case (Delta cr) 0 in
        if delta >? MaxRune then
          (* an Upper Lower Upper Lower ... run: even offsets are upper *)
          Lo cr + Z.lor (Z.land (r - Lo cr) (Z.lnot 1)) (Z.of_nat _case mod 2)
        else r + delta
      else to _case r rest
  end.

Definition ToLower (r : rune) : rune :=
  if r <=? MaxASCII then
    if (0x41 <=? r) && (r <=? 0x5A) then r + 32 else r
  else to LowerCase r CaseRanges.

Definition ToUpper (r : rune) : rune :=
  if r <=? MaxASCII then
    if (0x61 <=? r) && (r <=? 0x7A) then r - 32 else r
  else to UpperCase r CaseRanges.

End Unicode.

Module Utf8.

Local Open Scope Z_scope.
Import Unicode.

Definition RuneError : rune := 0xFFFD.
Definition RuneSelf : Z := 0x80.

Definition byte_of (c : ascii) : Z := Z.of_N (N_of_ascii c).
Definition ascii_of (b : Z) : ascii := ascii_of_N (Z.to_N (b mod 256)).

Definition between (lo b hi : Z) : bool := (lo <=? b) && (b <=? hi).

(** [utf8.DecodeRuneInString]: the rune at the head of [s] and its width;
    a byte that starts no well-formed sequence is [RuneError] of width 1. *)
Definition DecodeRune (s : list Z) : rune * nat :=
  match s with
  | [] => (RuneError, 0%nat)
  | s0 :: s' =>
      if s0 <? RuneSelf then (s0, 1%nat)
      else if between 0xC2 s0 0xDF then
        match s' with
        | s1 :: _ =>
            if between 0x80 s1 0xBF
            then (Z.lor (Z.shiftl (Z.land s0 0x1F) 6) (Z.land s1 0x3F), 2%nat)
            else (RuneError, 1%nat)
        | _ => (RuneError, 1%nat)
        end
      else if between 0xE0 s0 0xEF then
        let lo := if s0 =? 0xE0 then 0xA0 else 0x80 in
        let hi := if s0 =? 0xED then 0x9F else 0xBF in
        match s' with
        | s1 :: s2 :: _ =>
            if between lo s1 hi && between 0x80 s2 0xBF
            then (Z.lor (Z.shiftl (Z.land s0 0x0F) 12)
                    (Z.lor (Z.shiftl (Z.land s1 0x3F) 6) (Z.land s2 0x3F)),
                  3%nat)
            else (RuneError, 1%nat)
        | _ => (RuneError, 1%nat)
        end
      else if between 0xF0 s0 0xF4 then
        let lo := if s0 =? 0xF0 then 0x90 else 0x80 in
        let hi := if s0 =? 0xF4 then 0x8F else 0xBF in
        match s' with
        | s1 :: s2 :: s3 :: _ =>
            if between lo s1 hi && between 0x80 s2 0xBF && between 0x80 s3 0xBF
            then (Z.lor (Z.shiftl (Z.land s0 0x07) 18)
                    (Z.lor (Z.shiftl (Z.land s1 0x3F) 12)
                       (Z.lor (Z.shiftl (Z.land s2 0x3F) 6) (Z.land s3 0x3F))),
                  4%nat)
            else (RuneError, 1%nat)
        | _ => (RuneError, 1%nat)
        end
      else (RuneError, 1%nat)
  end.

(** The runes of [s], as [for _, c := range s] yields them.  The fuel is
    the number of bytes, and every step consumes at least one. *)
Fixpoint runes_fuel (fuel : nat) (s : list Z) : list rune :=
  match fuel, s with
  | O, _ | _, [] => []
  | S fuel', _ :: _ =>
      let '(r, width) := DecodeRune s in
      r :: runes_fuel fuel' (drop width s)
  end.

Definition runes (s : list Z) : list rune := runes_fuel (length s) s.

(** [utf8.AppendRune]: surrogates and values out of range are written as
    [RuneError]. *)
Definition EncodeRune (r : rune) : list Z :=
  let three (r : rune) :=
    [Z.lor 0xE0 (Z.shiftr r 12);
     Z.lor 0x80 (Z.land (Z.shiftr r 6) 0x3F);
     Z.lor 0x80 (Z.land r 0x3F)] in
  if between 0 r 0x7F then [r]
  else if between 0x80 r 0x7FF then
    [Z.lor 0xC0 (Z.shiftr r 6); Z.lor 0x80 (Z.land r 0x3F)]
  else if (r <? 0) || (MaxRune <? r) || between 0xD800 r 0xDFFF then
    three RuneError
  else if r <=? 0xFFFF then three r
  else
    [Z.lor 0xF0 (Z.shiftr r 18);
     Z.lor 0x80 (Z.land (Z.shiftr r 12) 0x3F);
     Z.lor 0x80 (Z.land (Z.shiftr r 6) 0x3F);
     Z.lor 0x80 (Z.land r 0x3F)].

End Utf8.

Module Strings.

Import Unicode Utf8.

Definition bytes (s : string) : list Z := byte_of <$> list_ascii_of_string s.
Definition of_bytes (l : list Z) : string :=
  string_of_list_ascii (ascii_of <$> l).

(** [strings.Map]: every rune of [s] replaced by its image, a negative
    image dropped. *)
Definition Map (mapping : rune -> rune) (s : string) : string :=
  of_bytes
    (concat ((fun c => let r := mapping c in
                       if (r <? 0)%Z then [] else EncodeRune r)
             <$> runes (bytes s))).

Definition isASCII (s : string) : bool :=
  forallb (fun c => (byte_of c <? RuneSelf)%Z) (list_ascii_of_string s).

Definition is_upper_byte (c : ascii) : bool := between 0x41 (byte_of c) 0x5A.
Definition is_lower_byte (c : ascii) : bool := between 0x61 (byte_of c) 0x7A.

(** [c += 'a' - 'A'] on an upper-case byte, and its converse. *)
Definition lower_byte (c : ascii) : ascii :=
  if is_upper_byte c then ascii_of (byte_of c + 32) else c.
Definition upper_byte (c : ascii) : ascii :=
  if is_lower_byte c then ascii_of (byte_of c - 32) else c.

Fixpoint map_bytes (f : ascii -> ascii) (s : string) : string :=
  match s with
  | EmptyString => EmptyString
  | String c s' => String (f c) (map_bytes f s')
  end.

Definition hasUpper (s : string) : bool :=
  existsb is_upper_byte (list_ascii_of_string s).
Definition hasLower (s : string) : bool :=
  existsb is_lower_byte (list_ascii_of_string s).

Definition ToLower (s : string) : string :=
  if isASCII s then
    if hasUpper s then map_bytes lower_byte s else s
  else Map Unicode.ToLower s.

Definition ToUpper (s : string) : string :=
  if isASCII s then
    if hasLower s then map_bytes upper_byte s else s
  else Map Unicode.ToUpper s.

(** [for len(s) > 0 && s[0] == c { s = s[1:] }] *)
Fixpoint trimLeftByte (s : string) (c : ascii) : string :=
  match s with
  | EmptyString => EmptyString
  | String a s' => if Ascii.eqb a c then trimLeftByte s' c else s
  end.

(** [for len(s) > 0 && s[len(s)-1] == c { s = s[:len(s)-1] }] *)
Fixpoint trimRightByte (s : string) (c : ascii) : string :=
  match s with
  | EmptyString => EmptyString
  | String a s' =>
      match trimRightByte s' c with
      | EmptyString => if Ascii.eqb a c then EmptyString else String a EmptyString
      | t => String a t
      end
  end.

(** [strings.Trim(s, cutset)] for a cutset of one ASCII byte [c], the only
    use [utils] makes of it. *)
Definition Trim (s : string) (c : ascii) : string :=
  trimLeftByte (trimRightByte s c) c.

End Strings.

(* ===================================================================== *)
(** * Package [utils] *)
(* ===================================================================== *)

Module Utils.

(** The byte 0x22, the double quote. *)
Definition quote : ascii := "034"%char.

Definition FormatIdentifier (identifier driverName : string) : string :=
  let formattedIdentifier := Strings.ToLower identifier in
  if String.eqb driverName "oracle" || String.eqb driverName "db2" then
    Strings.ToUpper formattedIdentifier
  else
    String quote formattedIdentifier +:+ String quote "".

Definition DeformatIdentifier (identifier driverName : string) : string :=
  let deformattedIdentifier := Strings.Trim identifier quote in
  Strings.ToLower deformattedIdentifier.



(** The dynamic values a [map[string]any] of column values holds; [VOther]
    stands for a value of any further type. *)
Inductive any :=
| VNil
| VBool (b : bool)
| VInt (n : Z)
| VString (s : string)
| VOther (tag : nat).

#[global] Instance any_eq_dec : EqDecision any.
Proof. solve_decision. Defined.

(** [sql.NamedArg] *)
Record NamedArg := Named { Name : string; Value : any }.

(** The state of the loop of [PrepareArrayArgs]: the caller's map, which
    the loop writes to, and the three results. *)
Record PrepareState := mkPrepareState {
  keyValues : gmap string any;
  fieldNames : string;
  fieldValues : string;
  fieldArgs : list NamedArg
}.

(** One iteration, at key [k]. *)
Definition PrepareArrayArgs_body (driverName : string) (st : PrepareState)
    (k : string) : PrepareState :=
  match keyValues st !! k with
  | None => st          (* not a key of the map: the range does not yield it *)
  | Some v =>
      let sep := if String.eqb (fieldNames st) "" then "" else ", " in
      let fieldName := FormatIdentifier k driverName in
      let keyValues' :=
        match v with
        | VBool b =>
            if String.eqb driverName "oracle" || String.eqb driverName "sqlserver"
            then <[k := VInt (if b then 1 else 0)]> (keyValues st)
            else keyValues st
        | _ => keyValues st
        end in
      let s := Named fieldName (default VNil (keyValues' !! k)) in
      mkPrepareState keyValues'
        (fieldNames st +:+ sep +:+ fieldName)
        (fieldValues st +:+ sep +:+ ":" +:+ fieldName)
        (fieldArgs st ++ [s])
  end.

(** [PrepareArrayArgs(keyValues, driverName)].  Go ranges over a map in an
    order of its own choosing: [order] is that order, a list of the keys. *)
Definition PrepareArrayArgs (kv : gmap string any) (driverName : string)
    (order : list string) : PrepareState :=
  foldl (PrepareArrayArgs_body driverName) (mkPrepareState kv "" "" []) order.

(** What the claim says becomes of a value under "oracle" and "sqlserver":
    integer 1 or 0 for a boolean, the value itself otherwise. *)
Definition bool_as_int (v : any) : any :=
  match v with
  | VBool true => VInt 1
  | VBool false => VInt 0
  | _ => v
  end.

(** The keys of a map, each once. *)
Definition keys (kv : gmap string any) : list string := (map_to_list kv).*1.

(** A row with a boolean, an integer and a string column. *)
Definition sample_row : gmap string any :=
  <["Active" := VBool true]> (<["n" := VInt 7]> (<["Name" := VString "x"]> ∅)).

(** ** [DeformatKeys] *)

(** [DeformatKeys(kv, driverName)]: a fresh map, filled while ranging over
    [kv] in the order [order]. *)
Definition DeformatKeys (kv : gmap string any) (driverName : string)
    (order : list string) : gmap string any :=
  foldl (fun r k =>
           match kv !! k with
           | Some v => <[DeformatIdentifier k driverName := v]> r
           | None => r   (* not a key of the map: the range does not yield it *)
           end)
        ∅ order.

(** A row whose two keys differ in case only. *)
Definition clashing_row : gmap string any :=
  <["ID" := VInt 1]> (<["id" := VInt 2]> ∅).

(** ** The results of [PrepareArrayArgs] *)

(** [l] written with [sep] between its elements. *)
Fixpoint join (sep : string) (l : list string) : string :=
  match l with
  | [] => ""
  | [x] => x
  | x :: l' => x +:+ sep +:+ join sep l'
  end.

(** What [PrepareArrayArgs] makes of a value under [driverName]. *)
Definition prepared (driverName : string) (v : any) : any :=
  if String.eqb driverName "oracle" || String.eqb driverName "sqlserver"
  then bool_as_int v else v.

(** ** The database helpers *)

(** What the helpers do to the outside: a statement executed on the
    database with the error it returned, and lines on the log. *)
Inductive DbEvent :=
| EExec (query : string) (r : option App.error)
| EWarnf (msg : string)
| EErrorf (msg : string).

(** [db.Exec] answers as a function of what happened so far; its
    [sql.Result] is dropped by every caller. *)
Definition DB := list DbEvent -> string -> option App.error.

Definition nl : string := String "010" "".

(** The statement of [KillConnections], line by line. *)
Definition kill_query (dbName : string) : string :=
  nl +:+
  "        SELECT pg_terminate_backend(pg_stat_activity.pid)" +:+ nl +:+
  "        FROM pg_stat_activity" +:+ nl +:+
  "        WHERE pg_stat_activity.datname = '" +:+ dbName +:+ "'" +:+ nl +:+
  "          AND pid <> pg_backend_pid();" +:+ nl +:+
  "    ".

Definition drop_query (dbName : string) : string :=
  "DROP DATABASE " +:+ String quote dbName +:+ String quote "".

Definition create_query (dbName : string) : string :=
  "CREATE DATABASE " +:+ String quote dbName +:+ String quote "".

(** [_, err := db.Exec(query)] *)
Definition Exec (db : DB) (query : string) (t : list DbEvent)
    : option App.error * list DbEvent :=
  let r := db t query in (r, (t ++ [EExec query r])%list).

(** [fmt.Errorf(prefix + ": %w", err)]: the message of the wrapped error. *)
Definition wrap (prefix : string) (err : App.error) : App.error :=
  prefix +:+ ": " +:+ err.

Definition KillConnections (db : DB) (dbName : string) (t : list DbEvent)
    : option App.error * list DbEvent :=
  let '(err, t) := Exec db (kill_query dbName) t in
  match err with
  | Some e => (Some (wrap "failed to kill connections" e), t)
  | None => (None, t)
  end.

(** The deferred function of [DropDatabase], run on the value returned. *)
Definition DropDatabase_deferred (dbName : string) (err : option App.error)
    (t : list DbEvent) : option App.error * list DbEvent :=
  match err with
  | Some e =>
      (err, (t ++ [EWarnf ("Error drop database " +:+ dbName +:+ ":" +:+ e)])%list)
  | None => (err, t)
  end.

Definition DropDatabase (db : DB) (dbName : string) (t : list DbEvent)
    : option App.error * list DbEvent :=
  let '(err, t) := KillConnections db dbName t in
  match err with
  | Some e =>
      DropDatabase_deferred dbName (Some e)
        (t ++ [EErrorf ("Failed to kill connections: " +:+ e)])%list
  | None =>
      let '(err, t) := Exec db (drop_query dbName) t in
      DropDatabase_deferred dbName err t
  end.

Definition CreateDatabase (db : DB) (dbName : string) (t : list DbEvent)
    : option App.error * list DbEvent :=
  let '(err, t) := Exec db (create_query dbName) t in
  match err with
  | Some e => (Some (wrap "failed to create database" e), t)
  | None => (None, t)
  end.

(** The statements executed, in order. *)
Definition executed (t : list DbEvent) : list string :=
  omap (fun e => match e with EExec q _ => Some q | _ => None end) t.

(** The warnings logged, in order. *)
Definition warnings (t : list DbEvent) : list string :=
  omap (fun e => match e with EWarnf m => Some m | _ => None end) t.

(** A database on which every statement succeeds, and one on which the
    statement [q] fails with [e]. *)
Definition healthy : DB := fun _ _ => None.
Definition refusing (q : string) (e : App.error) : DB :=
  fun _ q' => if String.eqb q' q then Some e else None.

End Utils.

(* ===================================================================== *)
(** * Properties of package [app] *)
(* ===================================================================== *)

Import App.

(** ** Stepping through the code *)

Ltac unfold_M :=
  cbv beta iota delta
    [failfast mbind M_bind mret M_ret bind ret get_app modify_app
     log_Info log_Error emit call invoke group_Wait] in *.


(** ** [Set] and [GetNameId] *)

(** C8. For every nameId, title, description, isLoop and debugKey, in any
    state of the package and for any environment, [Set] followed by
    [GetNameId] returns that nameId. *)
Theorem Set_then_GetNameId (env : Collaborators) (w : World)
    (nameId' title description : string) (isLoop : bool) (debugKey : string) :
  fst ((Set_ env nameId' title description isLoop debugKey ;; GetNameId) w)
  = nameId'.
Proof. reflexivity. Qed.

Example Set_svc1 env w :
  fst ((Set_ env "svc1" "Title" "Desc" true "k" ;; GetNameId) w) = "svc1".
Proof. reflexivity. Qed.

(** ** [Run]: the define phase *)

Lemma define_hook_error h f g e w :
  f = Some g -> g (trace w) = Some e ->
  define_hook h f w = (Some e, record w [EHook h (Some e); ELog LError e]).
Proof.
  intros -> Hg. unfold define_hook. unfold_M. rewrite Hg.
  unfold record; simpl. by rewrite <- app_assoc.
Qed.

Lemma define_hook_app h f w r w1 :
  define_hook h f w = (r, w1) -> app w1 = app w.
Proof.
  unfold define_hook. unfold_M. destruct f as [g|]; [destruct (g (trace w))|];
    intros [= <- <-]; reflexivity.
Qed.

(** C5. [Run] is fail-fast over the define phase.  If [OnDefine] is set and
    returns an error, [Run] returns that error and has done nothing but
    invoke [OnDefine] and log the error: [OnDefineConfiguration],
    [OnDefineAPI] and [execute] are not invoked.  The same holds for an
    error of [OnDefineConfiguration] once [OnDefine] has passed (only these
    two hooks ran), and for an error of [OnDefineAPI] once the two earlier
    hooks have passed ([execute] is not invoked). *)
Theorem Run_define_failfast (env : Collaborators) (w : World) (e : error) :
  (forall f, OnDefine (app w) = Some f -> f (trace w) = Some e ->
     Run env w = (Some e, record w [EHook HOnDefine (Some e); ELog LError e]))
  /\
  (forall w1 f,
     define_hook HOnDefine (OnDefine (app w)) w = (None, w1) ->
     OnDefineConfiguration (app w) = Some f -> f (trace w1) = Some e ->
     Run env w
     = (Some e, record w1 [EHook HOnDefineConfiguration (Some e); ELog LError e]))
  /\
  (forall w1 w2 f,
     define_hook HOnDefine (OnDefine (app w)) w = (None, w1) ->
     define_hook HOnDefineConfiguration (OnDefineConfiguration (app w)) w1
     = (None, w2) ->
     OnDefineAPI (app w) = Some f -> f (trace w2) = Some e ->
     Run env w
     = (Some e, record w2 [EHook HOnDefineAPI (Some e); ELog LError e])).
Proof.
  split; [|split].
  - intros f Hf He. unfold Run; unfold_M.
    by rewrite (define_hook_error _ _ f e w Hf He).
  - intros w1 f H1 Hf He. pose proof (define_hook_app _ _ _ _ _ H1) as Ha.
    unfold Run; unfold_M.
    rewrite H1, Ha.
    by rewrite (define_hook_error _ _ f e w1 Hf He).
  - intros w1 w2 f H1 H2 Hf He.
    pose proof (define_hook_app _ _ _ _ _ H1) as Ha1.
    pose proof (define_hook_app _ _ _ _ _ H2) as Ha2.
    unfold Run; unfold_M.
    rewrite H1, Ha1, H2, Ha2, Ha1.
    by rewrite (define_hook_error _ _ f e w2 Hf He).
Qed.

Lemma Run_define_failfast_witness :
  Run everything (fresh (defining (fails "bad") passes passes))
  = (Some "bad",
     record (fresh (defining (fails "bad") passes passes))
            [EHook HOnDefine (Some "bad"); ELog LError "bad"]) /\
  Run everything (fresh (defining passes (fails "bad") passes))
  = (Some "bad",
     record (fresh (defining passes (fails "bad") passes))
            [EHook HOnDefine None;
             EHook HOnDefineConfiguration (Some "bad"); ELog LError "bad"]) /\
  Run everything (fresh (defining None passes (fails "bad")))
  = (Some "bad",
     record (fresh (defining None passes (fails "bad")))
            [EHook HOnDefineConfiguration None;
             EHook HOnDefineAPI (Some "bad"); ELog LError "bad"]).
Proof.
  split; [|split].
  - apply (proj1 (Run_define_failfast everything
             (fresh (defining (fails "bad") passes passes)) "bad")
             (fun _ => Some "bad")); reflexivity.
  - apply (proj1 (proj2 (Run_define_failfast everything
             (fresh (defining passes (fails "bad") passes)) "bad"))
             (record (fresh (defining passes (fails "bad") passes))
                     [EHook HOnDefine None])
             (fun _ => Some "bad")); reflexivity.
  - apply (proj2 (proj2 (Run_define_failfast everything
             (fresh (defining None passes (fails "bad"))) "bad"))
             (fresh (defining None passes (fails "bad")))
             (record (fresh (defining None passes (fails "bad")))
                     [EHook HOnDefineConfiguration None])
             (fun _ => Some "bad")); reflexivity.
Defined.

(** ** [Stop] *)

(** Case analysis along the code: on the answer of a collaborator, on a
    flag, on a hook being set. *)
Ltac branch :=
  match goal with
  | H : context [match manager ?e ?t ?c with _ => _ end] |- _ =>
      destruct (manager e t c) eqn:?
  | H : context [match ?f ?t with Some _ => _ | None => _ end] |- _ =>
      destruct (f t) eqn:?
  | H : context [if ?b then _ else _] |- _ => destruct b eqn:?
  | H : context [match ?o with Some _ => _ | None => _ end] |- _ =>
      destruct o eqn:?
  end.

Ltac run_code H :=
  unfold_M; cbn in H; repeat (branch; cbn in H).

Ltac trace_eq :=
  unfold record; cbn; rewrite <- ?app_assoc; cbn; reflexivity.

Ltac by_position i H :=
  cbn in H;
  repeat (destruct i as [|i]; cbn in H;
          [try discriminate H; simplify_eq; try done | try discriminate H]).

Lemma no_errors evs :
  (forall c r0, EManager c r0 ∈ evs -> r0 = None) -> errors evs = [].
Proof.
  induction evs as [|ev evs IH]; intros H; [reflexivity|].
  unfold errors in *. cbn.
  rewrite IH by (intros c r0 Hin; apply (H c); by right).
  destruct ev as [c [e|]| | | | |]; try reflexivity.
  by specialize (H c (Some e) ltac:(left)).
Qed.

(** C6. [Stop] is fail-fast over its teardown steps and not over its hook.
    Whatever [OnStopping] returns, the steps attempted are the flagged ones
    in the order tasks, API, cache, storage, up to the first that fails (b);
    a step that returns an error is the last thing [Stop] does, and [Stop]
    returns that error (c); when every attempted step succeeds -- also when
    the hook returned an error -- all flagged steps were attempted and
    [Stop] returns nil (d). *)
Theorem Stop_failfast (env : Collaborators) (w w' : World) (r : option error) :
  Stop env w = (r, w') ->
  exists evs,
    w' = record w evs /\
    (* a *) hooks evs = match OnStopping (app w) with
                        | Some _ => [HOnStopping]
                        | None => []
                        end /\
    (* b *) calls evs `prefix_of` teardown_steps (app w) /\
    (* c *) (forall i c e, evs !! i = Some (EManager c (Some e)) ->
               r = Some e /\ length evs = S i) /\
    (* d *) ((forall c r0, EManager c r0 ∈ evs -> r0 = None) ->
               r = None /\ calls evs = teardown_steps (app w)).
Proof.
  intros H. destruct w as [a an lp t]. destruct a. unfold Stop in H.
  run_code H; simplify_eq;
    (eexists; split; [trace_eq|]); unfold teardown_steps; cbn;
    (split; [reflexivity|]);
    (split; [by (eexists; cbn; reflexivity)|]);
    (split; [intros i c0 e0 Hi; by_position i Hi
            |intros Hall; apply no_errors in Hall; by cbn in Hall]).
Qed.

Lemma Stop_failfast_witness :
  exists evs,
    snd (Stop (failing [] ApiStopAll "down") (fresh started_all))
    = record (fresh started_all) evs /\
    hooks evs = [HOnStopping] /\
    calls evs = [TasksStopAll; ApiStopAll] /\
    fst (Stop (failing [] ApiStopAll "down") (fresh started_all)) = Some "down" /\
    length evs = 4.
Proof.
  destruct (Stop_failfast (failing [] ApiStopAll "down") (fresh started_all)
              _ _ (surjective_pairing _)) as (evs & Hw & Hh & _ & Hc & _).
  exists evs. split; [exact Hw|]. split; [exact Hh|].
  assert (evs = [ELog LInfo "Stopping"; EHook HOnStopping (Some "hook");
                 EManager TasksStopAll None;
                 EManager ApiStopAll (Some "down")]) as Hevs.
  { apply (f_equal trace) in Hw. vm_compute in Hw. symmetry. exact Hw. }
  split; [by rewrite Hevs|].
  apply (Hc 3 ApiStopAll "down"). by rewrite Hevs.
Defined.

(** ** [start] *)

#[local] Arguments section_exists : simpl never.
#[local] Arguments banner : simpl never.
#[local] Arguments events_since : simpl never.

Lemma events_since_app a an lp t a' an' lp' evs :
  events_since (mkWorld a an lp t) (mkWorld a' an' lp' (t ++ evs)) = evs.
Proof. unfold events_since; cbn. by rewrite drop_app_length. Qed.

Ltac trace_norm :=
  cbn; rewrite <- ?app_assoc; cbn; rewrite ?events_since_app; cbn.

(** C7, as stated, fails: with none of the four sections configured,
    [start] still calls [configurations.Manager.Load]. *)
Lemma start_no_sections_calls_Load :
  section_exists (quiet []) "redis" = false /\
  section_exists (quiet []) "storage" = false /\
  section_exists (quiet []) "api" = false /\
  section_exists (quiet []) "tasks" = false /\
  calls (events_since (fresh init) (snd (start (quiet []) (fresh init)))) <> [].
Proof. vm_compute. repeat split; discriminate. Qed.

(** C7, amended.  For a configuration with none of the sections redis,
    storage, api, tasks, [start] invokes no manager method other than
    [configurations.Manager.Load]; when that call succeeds, [start] sets
    the four presence flags to false and returns nil. *)
Theorem start_no_sections (env : Collaborators) (w w' : World) (r : option error) :
  section_exists env "redis" = false ->
  section_exists env "storage" = false ->
  section_exists env "api" = false ->
  section_exists env "tasks" = false ->
  start env w = (r, w') ->
  calls (events_since w w') = [ConfigurationsLoad] /\
  (EManager ConfigurationsLoad None ∈ events_since w w' ->
     r = None /\
     IsRedisExist (app w') = false /\ IsStorageExist (app w') = false /\
     IsAPIExist (app w') = false /\ IsTaskExist (app w') = false).
Proof.
  intros Hr Hs Ha Ht H. destruct w as [a an lp t]. destruct a.
  unfold start in H. unfold_M. cbn in H. rewrite Hr, Hs, Ha, Ht in H.
  repeat (branch; cbn in H); simplify_eq; trace_norm.
  all: split; [reflexivity|]; intros Hin.
  all: repeat (apply elem_of_cons in Hin as [Hin|Hin]; [simplify_eq|]);
       try by apply elem_of_nil in Hin.
  all: done.
Qed.

Lemma start_no_sections_witness :
  calls (events_since (fresh init) (snd (start (quiet []) (fresh init))))
  = [ConfigurationsLoad] /\
  fst (start (quiet []) (fresh init)) = None /\
  IsRedisExist (app (snd (start (quiet []) (fresh init)))) = false /\
  IsStorageExist (app (snd (start (quiet []) (fresh init)))) = false /\
  IsAPIExist (app (snd (start (quiet []) (fresh init)))) = false /\
  IsTaskExist (app (snd (start (quiet []) (fresh init)))) = false.
Proof.
  destruct (start_no_sections (quiet []) (fresh init)
              (snd (start (quiet []) (fresh init)))
              (fst (start (quiet []) (fresh init))))
    as [Hc Hf]; try (vm_compute; reflexivity).
  split; [exact Hc|]. apply Hf. vm_compute. repeat constructor.
Defined.

Ltac start_cases H :=
  unfold start in H; unfold_M; cbn in H; repeat (branch; cbn in H);
  simplify_eq; trace_norm.

Ltac find_before :=
  unfold called_before;
  first [ by (exists 0; split; [lia|reflexivity])
        | by (exists 1; split; [lia|reflexivity])
        | by (exists 2; split; [lia|reflexivity])
        | by (exists 3; split; [lia|reflexivity])
        | by (exists 4; split; [lia|reflexivity]) ].

(** C3, as stated, fails: with a cache and a storage section configured,
    the storage manager is called (its [LoadFromConfiguration], third call
    of [start]) before the cache endpoints are connected. *)
Lemma start_storage_loaded_before_cache_connected :
  let cs := calls (events_since (fresh init)
                     (snd (start (quiet ["redis"; "storage"]) (fresh init)))) in
  section_exists (quiet ["redis"; "storage"]) "redis" = true /\
  cs !! 2 = Some DatabasesLoadFromConfiguration /\
  storage_call DatabasesLoadFromConfiguration = true /\
  ~ called_before RedisConnectAllAtStart 2 cs.
Proof.
  vm_compute. repeat split. intros (j & Hj & Hc).
  destruct j as [|[|j]]; [discriminate Hc|discriminate Hc|].
  apply Nat.leb_le in Hj. cbn in Hj. discriminate.
Qed.

(** C3, amended.  For any configuration and whatever the collaborators
    answer, the manager calls of [start] are, in order, a subsequence of
    configuration load, cache load, storage load, cache connect, storage
    connect, tables connect, API start, tasks start -- namely the calls
    whose section is configured, up to the first that fails, and all of
    them when [start] returns nil; so the subsystems are started in the
    order cache, storage, API, tasks.  When a cache section
    is present, the cache manager is loaded before any call on the storage
    side, and the cache endpoints are connected before any storage endpoint
    or table is connected -- but after the storage manager is loaded. *)
Theorem start_order (env : Collaborators) (w w' : World) (r : option error) :
  start env w = (r, w') ->
  let cs := calls (events_since w w') in
  cs `sublist_of` start_sequence /\
  cs `prefix_of` start_steps env /\
  (r = None -> cs = start_steps env) /\
  started (events_since w w') `sublist_of` [Cache; Storage; API; Tasks] /\
  (section_exists env "redis" = true ->
   forall i c, cs !! i = Some c -> storage_call c = true ->
     called_before RedisLoadFromConfiguration i cs /\
     (c <> DatabasesLoadFromConfiguration ->
      called_before RedisConnectAllAtStart i cs)).
Proof.
  intros H. destruct w as [a an lp t]. destruct a. unfold start_steps.
  start_cases H.
  all: split; [unfold start_sequence; repeat constructor|].
  all: split; [by (eexists; cbn; reflexivity)|].
  all: split; [by intros ?|].
  all: split; [repeat constructor|].
  all: intros Hredis i c Hi Hc; try discriminate Hredis.
  all: by_position i Hi; try discriminate Hc.
  all: split; [find_before|intros Hne; first [done|find_before]].
Qed.

Lemma start_order_witness :
  calls (events_since (fresh init) (snd (start everything (fresh init))))
    `sublist_of` start_sequence /\
  called_before RedisConnectAllAtStart 4
    (calls (events_since (fresh init) (snd (start everything (fresh init))))).
Proof.
  destruct (start_order everything (fresh init) _ _ (surjective_pairing _))
    as (H1 & _ & _ & _ & H3).
  split; [exact H1|].
  apply (H3 ltac:(vm_compute; reflexivity) 4 DatabasesConnectAllAtStart);
    [reflexivity|reflexivity|discriminate].
Defined.

(** ** [Stop] after [start] *)




(** ** [execute] *)

#[local] Arguments start : simpl never.
#[local] Arguments Stop : simpl never.
#[local] Arguments execute_run : simpl never.

Lemma space_in_append t r :
  In " "%char (list_ascii_of_string (t +:+ " " +:+ r)).
Proof. induction t as [|c t IH]; cbn; [by left|by right]. Qed.

Lemma banner_not_Stopping a : banner a <> "Stopping".
Proof.
  intros H. pose proof (space_in_append (Title a) (Version a +:+ " " +:+ Description a)) as Hin.
  unfold banner in H. rewrite H in Hin. cbn in Hin.
  intuition discriminate.
Qed.

Lemma start_IsLoop env w r w1 :
  start env w = (r, w1) -> IsLoop (app w1) = IsLoop (app w).
Proof.
  intros H. destruct w as [a an lp t]. destruct a.
  start_cases H; reflexivity.
Qed.


(** The only line that [start] logs is the banner. *)
Lemma start_logs env w r w1 l msg :
  start env w = (r, w1) -> ELog l msg ∈ events_since w w1 ->
  msg = banner (app w).
Proof.
  intros H Hin. destruct w as [a an lp t]. destruct a.
  start_cases H; trace_norm.
  all: rewrite <- ?app_assoc in Hin; cbn in Hin;
       rewrite ?events_since_app in Hin.
  all: repeat (apply elem_of_cons in Hin as [Hin|Hin]; [by simplify_eq|]).
  all: by apply elem_of_nil in Hin.
Qed.

Lemma Stop_extends env w r w' :
  Stop env w = (r, w') ->
  exists evs, trace w' = (trace w ++ ELog LInfo "Stopping" :: evs)%list.
Proof.
  intros H. destruct w as [a an lp t]. destruct a. unfold Stop in H.
  run_code H; simplify_eq; cbn; rewrite <- ?app_assoc; cbn; by eexists.
Qed.


Lemma Stop_invoked_app evs evs' :
  Stop_invoked (evs ++ evs') <-> Stop_invoked evs \/ Stop_invoked evs'.
Proof. unfold Stop_invoked. apply elem_of_app. Qed.




(** The sequential part of what [execute] does with the error group: in a
    loop, once [OnExecute] has passed, the result of [execute_run] is what
    [Wait] answered.  What [Wait] itself computes is the error group's
    business. *)
Lemma execute_run_Wait env w r w' :
  IsLoop (app w) = true ->
  (forall f, OnExecute (app w) = Some f -> f (trace w) = None) ->
  execute_run env w = (r, w') ->
  EWait r ∈ events_since w w'.
Proof.
  intros HL Hf H. destruct w as [a an lp t]. destruct a. cbn in HL, Hf.
  subst. unfold execute_run in H. unfold_M. cbn in H.
  destruct OnExecute0 as [f|]; cbn in H.
  - rewrite (Hf f eq_refl) in H. cbn in H.
    destruct (Wait env _) eqn:?; cbn in H; simplify_eq; trace_norm; set_solver.
  - destruct (Wait env _) eqn:?; cbn in H; simplify_eq; trace_norm; set_solver.
Qed.

(* ===================================================================== *)
(** * Properties of package [utils] *)
(* ===================================================================== *)

Import Strings Utils.

(** ** Bytes *)

Ltac each_byte c :=
  destruct c as [[] [] [] [] [] [] [] []]; vm_compute; intros;
  first [reflexivity | discriminate].

Lemma lower_byte_idem c : lower_byte (lower_byte c) = lower_byte c.
Proof. each_byte c. Qed.

Lemma lower_upper_lower_byte c :
  lower_byte (upper_byte (lower_byte c)) = lower_byte c.
Proof. each_byte c. Qed.

Lemma lower_byte_not_upper c : is_upper_byte c = false -> lower_byte c = c.
Proof. unfold lower_byte. by intros ->. Qed.

Lemma upper_byte_not_lower c : is_lower_byte c = false -> upper_byte c = c.
Proof. unfold upper_byte. by intros ->. Qed.

Lemma lower_byte_ascii c :
  (Utf8.byte_of c <? Utf8.RuneSelf)%Z = true ->
  (Utf8.byte_of (lower_byte c) <? Utf8.RuneSelf)%Z = true.
Proof. each_byte c. Qed.

Lemma upper_byte_ascii c :
  (Utf8.byte_of c <? Utf8.RuneSelf)%Z = true ->
  (Utf8.byte_of (upper_byte c) <? Utf8.RuneSelf)%Z = true.
Proof. each_byte c. Qed.

Lemma lower_byte_quote c :
  Ascii.eqb quote (lower_byte c) = Ascii.eqb quote c.
Proof. each_byte c. Qed.

Lemma upper_byte_quote c :
  Ascii.eqb quote (upper_byte c) = Ascii.eqb quote c.
Proof. each_byte c. Qed.

(** ** Strings of ASCII bytes *)

Lemma map_bytes_id f s :
  (forall c, In c (list_ascii_of_string s) -> f c = c) -> map_bytes f s = s.
Proof.
  induction s as [|c s IH]; intros H; cbn; [reflexivity|].
  rewrite (H c) by (by left). rewrite IH; [reflexivity|].
  intros c' Hc'. apply H. by right.
Qed.

Lemma ToLower_ascii s : isASCII s = true -> ToLower s = map_bytes lower_byte s.
Proof.
  intros Ha. unfold ToLower. rewrite Ha.
  destruct (hasUpper s) eqn:Hu; [reflexivity|].
  symmetry. apply map_bytes_id. intros c Hc. apply lower_byte_not_upper.
  unfold hasUpper in Hu. destruct (is_upper_byte c) eqn:Hc'; [|reflexivity].
  assert (existsb is_upper_byte (list_ascii_of_string s) = true) as Hex
    by (apply existsb_exists; eauto).
  congruence.
Qed.

Lemma ToUpper_ascii s : isASCII s = true -> ToUpper s = map_bytes upper_byte s.
Proof.
  intros Ha. unfold ToUpper. rewrite Ha.
  destruct (hasLower s) eqn:Hu; [reflexivity|].
  symmetry. apply map_bytes_id. intros c Hc. apply upper_byte_not_lower.
  unfold hasLower in Hu. destruct (is_lower_byte c) eqn:Hc'; [|reflexivity].
  assert (existsb is_lower_byte (list_ascii_of_string s) = true) as Hex
    by (apply existsb_exists; eauto).
  congruence.
Qed.

Lemma isASCII_lower s : isASCII s = true -> isASCII (map_bytes lower_byte s) = true.
Proof.
  unfold isASCII. induction s as [|c s IH]; cbn; [done|].
  intros [Hc Hs]%andb_prop. by rewrite lower_byte_ascii, IH.
Qed.

Lemma isASCII_upper s : isASCII s = true -> isASCII (map_bytes upper_byte s) = true.
Proof.
  unfold isASCII. induction s as [|c s IH]; cbn; [done|].
  intros [Hc Hs]%andb_prop. by rewrite upper_byte_ascii, IH.
Qed.



Lemma map_bytes_lower_idem s :
  map_bytes lower_byte (map_bytes lower_byte s) = map_bytes lower_byte s.
Proof. induction s as [|c s IH]; cbn [map_bytes list_ascii_of_string existsb trimRightByte trimLeftByte]; [done|]. by rewrite lower_byte_idem, IH. Qed.

Lemma map_bytes_lower_upper_lower s :
  map_bytes lower_byte (map_bytes upper_byte (map_bytes lower_byte s))
  = map_bytes lower_byte s.
Proof.
  induction s as [|c s IH]; cbn [map_bytes list_ascii_of_string existsb trimRightByte trimLeftByte]; [done|].
  by rewrite lower_upper_lower_byte, IH.
Qed.

(** ** [strings.Trim] on identifiers without quotes *)

Lemma eqb_quote_sym c : Ascii.eqb c quote = Ascii.eqb quote c.
Proof. apply Ascii.eqb_sym. Qed.






(** ** [FormatIdentifier] and [DeformatIdentifier] *)




(** ** [PrepareArrayArgs] *)

Lemma bool_as_int_idem v : bool_as_int (bool_as_int v) = bool_as_int v.
Proof. by destruct v as [|[]| | |]. Qed.

(** One iteration writes at most to the entry it visits. *)
Lemma PrepareArrayArgs_body_lookup driverName st k k' :
  keyValues (PrepareArrayArgs_body driverName st k) !! k'
  = if (String.eqb driverName "oracle" || String.eqb driverName "sqlserver")
       && bool_decide (k = k')
    then bool_as_int <$> keyValues st !! k'
    else keyValues st !! k'.
Proof.
  unfold PrepareArrayArgs_body.
  destruct (keyValues st !! k) as [v|] eqn:Hk.
  - destruct (_ || _); cbn [andb keyValues];
      [|by destruct v].
    case_bool_decide as Hkk.
    + subst k'. rewrite Hk. cbn.
      destruct v as [|[]| | |]; cbn [keyValues]; rewrite ?lookup_insert_eq, ?Hk;
        reflexivity.
    + destruct v; cbn [keyValues]; rewrite ?lookup_insert_ne by done;
        reflexivity.
  - destruct (_ || _); cbn [andb]; [|reflexivity].
    case_bool_decide as Hkk; [|reflexivity]. subst k'. by rewrite Hk.
Qed.

Lemma PrepareArrayArgs_loop_lookup driverName order st k' :
  keyValues (foldl (PrepareArrayArgs_body driverName) st order) !! k'
  = if (String.eqb driverName "oracle" || String.eqb driverName "sqlserver")
       && bool_decide (k' ∈ order)
    then bool_as_int <$> keyValues st !! k'
    else keyValues st !! k'.
Proof.
  revert st. induction order as [|k order IH]; intros st; cbn [foldl].
  - rewrite bool_decide_eq_false_2 by apply not_elem_of_nil.
    by rewrite andb_false_r.
  - rewrite IH, PrepareArrayArgs_body_lookup.
    destruct (_ || _); cbn [andb]; [|reflexivity].
    repeat case_bool_decide; subst; try reflexivity;
      repeat match goal with
             | H : _ ∈ _ :: _ |- _ => apply elem_of_cons in H as [?|?]
             | H : _ ∉ _ :: _ |- _ => apply not_elem_of_cons in H as [? ?]
             end; subst; try done.
    all: rewrite <- option_fmap_compose.
    all: destruct (keyValues st !! _); cbn; [|reflexivity].
    all: by rewrite bool_as_int_idem.
Qed.

(** C10. [PrepareArrayArgs] writes to the map it is given.  Ranging over
    the keys of the map in any order: under the driver "oracle" or
    "sqlserver" the map ends with every boolean value replaced by integer 1
    (true) or 0 (false) and every other value as it was; under any other
    driver the map ends as it was. *)
Theorem PrepareArrayArgs_mutates (kv : gmap string any) (driverName : string)
    (order : list string) :
  order ≡ₚ keys kv ->
  (driverName = "oracle" \/ driverName = "sqlserver" ->
   forall k, keyValues (PrepareArrayArgs kv driverName order) !! k
             = bool_as_int <$> kv !! k) /\
  (driverName <> "oracle" -> driverName <> "sqlserver" ->
   keyValues (PrepareArrayArgs kv driverName order) = kv).
Proof.
  intros Hperm. unfold PrepareArrayArgs. split.
  - intros Hd k. rewrite PrepareArrayArgs_loop_lookup. cbn [keyValues].
    replace (_ || _) with true
      by (destruct Hd as [-> | ->]; reflexivity).
    cbn [andb]. case_bool_decide as Hin; [reflexivity|].
    assert (kv !! k = None) as ->; [|reflexivity].
    apply not_elem_of_dom. intros Hdom. apply Hin. rewrite Hperm.
    apply elem_of_dom in Hdom as [v Hv]. unfold keys.
    apply list_elem_of_fmap. exists (k, v). split; [reflexivity|].
    by apply elem_of_map_to_list.
  - intros Ho Hs. apply map_eq. intros k.
    rewrite PrepareArrayArgs_loop_lookup. cbn [keyValues].
    apply String.eqb_neq in Ho, Hs. by rewrite Ho, Hs.
Qed.

Lemma PrepareArrayArgs_mutates_witness :
  (forall k, keyValues (PrepareArrayArgs sample_row "oracle" (keys sample_row)) !! k
             = bool_as_int <$> sample_row !! k) /\
  keyValues (PrepareArrayArgs sample_row "mysql" (keys sample_row)) = sample_row.
Proof.
  split.
  - apply (proj1 (PrepareArrayArgs_mutates sample_row "oracle" (keys sample_row)
                    (reflexivity _))).
    by left.
  - apply (proj2 (PrepareArrayArgs_mutates sample_row "mysql" (keys sample_row)
                    (reflexivity _))); discriminate.
Defined.

Example PrepareArrayArgs_oracle :
  map_to_list (keyValues (PrepareArrayArgs sample_row "oracle" (keys sample_row)))
  = map_to_list (<["Active" := VInt 1]> sample_row).
Proof. vm_compute. reflexivity. Qed.

(* ===================================================================== *)
(** * Further properties of package [app] *)
(* ===================================================================== *)

(** ** The events of each phase *)

Lemma events_since_extends w w' evs :
  trace w' = (trace w ++ evs)%list -> events_since w w' = evs.
Proof. unfold events_since. intros ->. by rewrite drop_app_length. Qed.

Lemma events_since_trans w w1 w2 e1 e2 :
  trace w1 = (trace w ++ e1)%list -> trace w2 = (trace w1 ++ e2)%list ->
  trace w2 = (trace w ++ e1 ++ e2)%list.
Proof. intros -> ->. by rewrite app_assoc. Qed.

Ltac shape :=
  eexists; split; [reflexivity|]; split; [by repeat constructor|];
  cbn; repeat constructor.

(** [start] records its banner, calls of its sequence and at most one
    [OnStartStorageReady]. *)
Lemma start_shape env w r w1 :
  start env w = (r, w1) ->
  exists evs, trace w1 = (trace w ++ evs)%list /\
    Forall (fun e => from_start e = true) evs /\
    hooks evs `sublist_of` [HOnStartStorageReady].
Proof.
  intros H. destruct w as [a an lp t]. destruct a.
  unfold start in H; unfold_M; cbn in H; repeat (branch; cbn in H);
    simplify_eq; cbn; rewrite <- ?app_assoc; cbn; shape.
Qed.

Lemma Stop_shape env w r w1 :
  Stop env w = (r, w1) ->
  exists evs, trace w1 = (trace w ++ evs)%list /\
    Forall (fun e => from_Stop e = true) evs /\
    hooks evs `sublist_of` [HOnStopping].
Proof.
  intros H. destruct w as [a an lp t]. destruct a. unfold Stop in H.
  run_code H; simplify_eq; cbn; rewrite <- ?app_assoc; cbn; shape.
Qed.

Lemma Starting_run_shape env w r w1 :
  (log_Info "Starting";; execute_run env) w = (r, w1) ->
  exists evs, trace w1 = (trace w ++ evs)%list /\
    Forall (fun e => from_run e = true) evs /\
    hooks evs `sublist_of` [HOnExecute].
Proof.
  intros H. destruct w as [a an lp t]. destruct a. unfold execute_run in H.
  run_code H; simplify_eq; cbn; rewrite <- ?app_assoc; cbn; shape.
Qed.

(** [execute], phase by phase. *)
Lemma execute_unfold env w :
  execute env w
  = let '(err, w1) := start env (record w [EWithContext]) in
    match err with
    | Some e => (Some e, record w1 [ERootContextCancel])
    | None =>
        let '(r, w2) := (log_Info "Starting";; execute_run env) w1 in
        if IsLoop (app w1) then
          let '(err2, w3) := Stop env w2 in
          (r, record w3
                (match err2 with
                 | Some e2 => [ELog LInfo ("Error in Stopping: (" +:+ e2 +:+ ")")]
                 | None => []
                 end ++ [ERootContextCancel]))
        else (r, record w2 [ERootContextCancel])
    end.
Proof.
  unfold execute, execute_body. unfold_M. unfold record. cbn.
  destruct (start env _) as [[e|] w1]; cbn; [reflexivity|].
  destruct (execute_run env _) as [r w2]; cbn.
  destruct (IsLoop (app w1)); cbn; [|reflexivity].
  unfold_M. destruct (Stop env w2) as [[e2|] w3]; cbn;
    by rewrite <- ?app_assoc.
Qed.

Lemma hooks_app evs evs' : hooks (evs ++ evs') = (hooks evs ++ hooks evs')%list.
Proof. unfold hooks. apply omap_app. Qed.

Lemma inner_start e : from_start e = true -> inner e = true.
Proof. unfold inner. by intros ->. Qed.

Lemma inner_run e : from_run e = true -> inner e = true.
Proof. unfold inner. intros ->. by rewrite orb_true_r. Qed.

Lemma inner_Stop e : from_Stop e = true -> inner e = true.
Proof. unfold inner. intros ->. by rewrite orb_true_r. Qed.

(** The whole of [execute]: the error group first, the cancellation last,
    and between them events of [start], of the run and of [Stop], with each
    of the three hooks at most once and in this order. *)
Lemma execute_shape env w :
  exists evs,
    trace (snd (execute env w))
    = (trace w ++ EWithContext :: evs ++ [ERootContextCancel])%list /\
    Forall (fun e => inner e = true) evs /\
    hooks evs `sublist_of` [HOnStartStorageReady; HOnExecute; HOnStopping].
Proof.
  rewrite execute_unfold.
  destruct (start env (record w [EWithContext])) as [[e|] w1] eqn:Hs;
    destruct (start_shape _ _ _ _ Hs) as (e1 & H1 & F1 & S1); cbn in H1.
  - exists e1. cbn. rewrite H1, <- !app_assoc. cbn.
    split; [reflexivity|]. split.
    + eapply Forall_impl; [exact F1|]. apply inner_start.
    + change [HOnStartStorageReady; HOnExecute; HOnStopping]
        with ([HOnStartStorageReady] ++ [HOnExecute; HOnStopping])%list.
      rewrite <- (app_nil_r (hooks e1)). apply sublist_app; [exact S1|].
      apply sublist_nil_l.
  - destruct ((log_Info "Starting";; execute_run env) w1) as [r w2] eqn:Hr.
    destruct (Starting_run_shape _ _ _ _ Hr) as (e2 & H2 & F2 & S2).
    destruct (IsLoop (app w1)).
    + destruct (Stop env w2) as [err2 w3] eqn:Ht.
      destruct (Stop_shape _ _ _ _ Ht) as (e3 & H3 & F3 & S3).
      exists (e1 ++ e2 ++ e3 ++
              match err2 with
              | Some e2' => [ELog LInfo ("Error in Stopping: (" +:+ e2' +:+ ")")]
              | None => []
              end)%list.
      cbn. rewrite H3, H2, H1, <- !app_assoc. cbn.
      split; [reflexivity|]. split.
      * rewrite !Forall_app. repeat split.
        -- eapply Forall_impl; [exact F1|]. apply inner_start.
        -- eapply Forall_impl; [exact F2|]. apply inner_run.
        -- eapply Forall_impl; [exact F3|]. apply inner_Stop.
        -- destruct err2; repeat constructor.
      * rewrite !hooks_app.
        replace (hooks match err2 with
                       | Some e2' => [ELog LInfo ("Error in Stopping: (" +:+ e2' +:+ ")")]
                       | None => []
                       end) with (@nil Hook) by (by destruct err2).
        rewrite app_nil_r.
        change [HOnStartStorageReady; HOnExecute; HOnStopping]
          with ([HOnStartStorageReady] ++ [HOnExecute] ++ [HOnStopping])%list.
        by repeat apply sublist_app.
    + exists (e1 ++ e2)%list.
      cbn. rewrite H2, H1, <- !app_assoc. cbn.
      split; [reflexivity|]. split.
      * rewrite !Forall_app. split.
        -- eapply Forall_impl; [exact F1|]. apply inner_start.
        -- eapply Forall_impl; [exact F2|]. apply inner_run.
      * rewrite !hooks_app.
        change [HOnStartStorageReady; HOnExecute; HOnStopping]
          with ([HOnStartStorageReady] ++ [HOnExecute] ++ [HOnStopping])%list.
        rewrite <- (app_nil_r (hooks e2)).
        repeat apply sublist_app; try done. apply sublist_nil_l.
Qed.

(** X1. On every path through [execute] -- [start] failing, a single run,
    a loop, [Stop] failing -- the error group is created first and the root
    context is cancelled last, each exactly once. *)
Theorem execute_brackets (env : Collaborators) (w : World) :
  exists evs,
    events_since w (snd (execute env w))
    = (EWithContext :: evs ++ [ERootContextCancel])%list /\
    Forall (fun e => bracket e = false) evs.
Proof.
  destruct (execute_shape env w) as (evs & Ht & Hf & _).
  exists evs. split; [by apply events_since_extends|].
  eapply Forall_impl; [exact Hf|].
  intros [c r|h r|l m| |r|]; cbn; try done.
Qed.

(** ** [Run] as a whole *)

Lemma define_hook_shape h f w r w1 :
  define_hook h f w = (r, w1) ->
  exists evs, trace w1 = (trace w ++ evs)%list /\
    hooks evs `sublist_of` [h] /\
    (forall e, r = Some e -> last evs = Some (ELog LError e)).
Proof.
  unfold define_hook. unfold_M. destruct f as [g|]; [destruct (g (trace w)) eqn:Hg|];
    intros [= <- <-]; cbn; rewrite <- ?app_assoc; cbn.
  - eexists; split; [reflexivity|]. split; [by repeat constructor|].
    by intros ? [= <-].
  - eexists; split; [reflexivity|]. split; [by repeat constructor|]. done.
  - exists []. rewrite app_nil_r. split; [reflexivity|].
    split; [by repeat constructor|]. done.
Qed.

Lemma hooks_in_sequence a b c d :
  a `sublist_of` [HOnDefine] -> b `sublist_of` [HOnDefineConfiguration] ->
  c `sublist_of` [HOnDefineAPI] ->
  d `sublist_of` [HOnStartStorageReady; HOnExecute; HOnStopping] ->
  (a ++ b ++ c ++ d)%list `sublist_of` hook_sequence.
Proof.
  intros Ha Hb Hc Hd.
  change hook_sequence
    with ([HOnDefine] ++ [HOnDefineConfiguration] ++ [HOnDefineAPI]
          ++ [HOnStartStorageReady; HOnExecute; HOnStopping])%list.
  by repeat apply sublist_app.
Qed.

(** [Run], phase by phase: the world in which it ends and what it returns. *)
Lemma Run_shape env w :
  exists e1 e2 e3 e4 tl,
    trace (snd (Run env w)) = (trace w ++ e1 ++ e2 ++ e3 ++ e4 ++ tl)%list /\
    hooks e1 `sublist_of` [HOnDefine] /\
    hooks e2 `sublist_of` [HOnDefineConfiguration] /\
    hooks e3 `sublist_of` [HOnDefineAPI] /\
    hooks e4 `sublist_of` [HOnStartStorageReady; HOnExecute; HOnStopping] /\
    hooks tl = [] /\
    (forall e, fst (Run env w) = Some e ->
       last (e1 ++ e2 ++ e3 ++ e4 ++ tl) = Some (ELog LError e)).
Proof.
  unfold Run. unfold_M.
  destruct (define_hook HOnDefine _ w) as [r1 w1] eqn:H1.
  destruct (define_hook_shape _ _ _ _ _ H1) as (e1 & T1 & S1 & L1).
  destruct r1 as [e|].
  { exists e1, [], [], [], []. cbn. rewrite !app_nil_r.
    repeat split; try done; try apply sublist_nil_l.
    all: intros e' [= <-]; by apply L1. }
  destruct (define_hook HOnDefineConfiguration _ w1) as [r2 w2] eqn:H2.
  destruct (define_hook_shape _ _ _ _ _ H2) as (e2 & T2 & S2 & L2).
  destruct r2 as [e|].
  { exists e1, e2, [], [], []. cbn. rewrite !app_nil_r, T2, T1, <- app_assoc.
    repeat split; try done; try apply sublist_nil_l.
    all: intros e' [= <-]; specialize (L2 e eq_refl).
    all: destruct e2; [done|]; by rewrite last_app_cons, L2. }
  destruct (define_hook HOnDefineAPI _ w2) as [r3 w3] eqn:H3.
  destruct (define_hook_shape _ _ _ _ _ H3) as (e3 & T3 & S3 & L3).
  destruct r3 as [e|].
  { exists e1, e2, e3, [], []. cbn. rewrite !app_nil_r, T3, T2, T1, <- !app_assoc.
    repeat split; try done; try apply sublist_nil_l.
    all: intros e' [= <-]; specialize (L3 e eq_refl).
    all: destruct e3; [done|]; by rewrite app_assoc, last_app_cons, L3. }
  destruct (execute_shape env w3) as (e4 & T4 & _ & S4).
  destruct (execute env w3) as [r4 w4]. cbn in T4.
  destruct r4 as [e|]; cbn.
  - exists e1, e2, e3, (EWithContext :: e4 ++ [ERootContextCancel])%list,
      [ELog LError e].
    rewrite T4, T3, T2, T1, <- !app_assoc. cbn. rewrite <- !app_assoc. cbn.
    repeat split; try done.
    all: try (rewrite hooks_app; cbn; by rewrite app_nil_r).
    all: intros e' [= <-].
    all: by rewrite !app_assoc, last_app_cons, app_comm_cons, last_app_cons.
  - exists e1, e2, e3, (EWithContext :: e4 ++ [ERootContextCancel])%list, [].
    rewrite T4, T3, T2, T1, <- !app_assoc. cbn. rewrite <- !app_assoc. cbn.
    repeat split; try done.
    all: rewrite hooks_app; cbn; by rewrite app_nil_r.
Qed.

(** X2. In one [Run], each of the six hooks is invoked at most once, and in
    the order define, define configuration, define API, storage ready,
    execute, stopping. *)
Theorem Run_hooks_in_order (env : Collaborators) (w : World) :
  hooks (events_since w (snd (Run env w))) `sublist_of` hook_sequence.
Proof.
  destruct (Run_shape env w) as (e1 & e2 & e3 & e4 & tl & T & S1 & S2 & S3 & S4 & Htl & _).
  rewrite (events_since_extends _ _ _ T), !hooks_app, Htl, app_nil_r.
  by apply hooks_in_sequence.
Qed.

(** X3. Whenever [Run] returns an error, the last thing it has done is to
    log that error at error level. *)
Theorem Run_logs_its_error (env : Collaborators) (w : World) (e : error) :
  fst (Run env w) = Some e ->
  last (trace (snd (Run env w))) = Some (ELog LError e).
Proof.
  intros He.
  destruct (Run_shape env w) as (e1 & e2 & e3 & e4 & tl & T & _ & _ & _ & _ & _ & L).
  specialize (L e He). rewrite T.
  destruct (e1 ++ e2 ++ e3 ++ e4 ++ tl)%list as [|x l]; [done|].
  by rewrite last_app_cons.
Qed.

Lemma Run_logs_its_error_witness :
  last (trace (snd (Run (failing [] ConfigurationsLoad "boom") (fresh looping))))
  = Some (ELog LError "boom").
Proof.
  apply (Run_logs_its_error (failing [] ConfigurationsLoad "boom")
           (fresh looping) "boom").
  vm_compute; reflexivity.
Defined.

(** ** More on [Stop] and [start] *)

(** X4. With no presence flag set, [Stop] calls no manager: it logs,
    invokes [OnStopping] if set, logs again and returns nil, whatever the
    hook returned. *)
Theorem Stop_nothing_present (env : Collaborators) (w : World) :
  IsTaskExist (app w) = false -> IsAPIExist (app w) = false ->
  IsRedisExist (app w) = false -> IsStorageExist (app w) = false ->
  fst (Stop env w) = None /\
  calls (events_since w (snd (Stop env w))) = [] /\
  hooks (events_since w (snd (Stop env w)))
  = match OnStopping (app w) with Some _ => [HOnStopping] | None => [] end /\
  last (trace (snd (Stop env w))) = Some (ELog LInfo "Stopped").
Proof.
  destruct w as [a an lp t]. destruct a. cbn. intros -> -> -> ->.
  unfold Stop. unfold_M. destruct OnStopping0 as [f|]; cbn;
    rewrite <- ?app_assoc; cbn; rewrite events_since_app; cbn;
    repeat split; by rewrite last_app_cons.
Qed.

Lemma Stop_nothing_present_witness :
  fst (Stop everything (fresh hooked)) = None /\
  calls (events_since (fresh hooked) (snd (Stop everything (fresh hooked)))) = [] /\
  hooks (events_since (fresh hooked) (snd (Stop everything (fresh hooked))))
  = [HOnStopping].
Proof.
  destruct (Stop_nothing_present everything (fresh hooked))
    as (H1 & H2 & H3 & _); try reflexivity.
  split; [exact H1|]. split; [exact H2|exact H3].
Defined.

(** X5. With a tasks section and none of redis, storage, api, the only
    start entry point that [start] can call is that of the task manager, at
    most once; it is called exactly once when the configuration loads. *)
Theorem start_only_tasks (env : Collaborators) (w w' : World) (r : option error) :
  section_exists env "redis" = false ->
  section_exists env "storage" = false ->
  section_exists env "api" = false ->
  section_exists env "tasks" = true ->
  start env w = (r, w') ->
  started (events_since w w') `prefix_of` [Tasks] /\
  (EManager ConfigurationsLoad None ∈ events_since w w' ->
   started (events_since w w') = [Tasks] /\
   calls (events_since w w') = [ConfigurationsLoad; TasksStartAll]).
Proof.
  intros Hr Hs Ha Ht H. destruct w as [a an lp t]. destruct a.
  unfold start in H. unfold_M. cbn in H. rewrite Hr, Hs, Ha, Ht in H.
  repeat (branch; cbn in H); simplify_eq; trace_norm.
  all: split; [by (eexists; cbn; reflexivity)|]; intros Hin.
  all: repeat (apply elem_of_cons in Hin as [Hin|Hin]; [simplify_eq|]);
       try by apply elem_of_nil in Hin.
  all: done.
Qed.

Lemma start_only_tasks_witness :
  started (events_since (fresh init) (snd (start (quiet ["tasks"]) (fresh init))))
  = [Tasks] /\
  calls (events_since (fresh init) (snd (start (quiet ["tasks"]) (fresh init))))
  = [ConfigurationsLoad; TasksStartAll].
Proof.
  destruct (start_only_tasks (quiet ["tasks"]) (fresh init)
              (snd (start (quiet ["tasks"]) (fresh init)))
              (fst (start (quiet ["tasks"]) (fresh init))))
    as [_ H]; try (vm_compute; reflexivity).
  apply H. vm_compute. repeat constructor.
Defined.

(** X6. [start] changes nothing of the package state but the trace and
    the four presence flags; when it returns nil, each flag tells whether
    its section is in the configuration. *)
Theorem start_presence (env : Collaborators) (w w' : World) (r : option error) :
  start env w = (r, w') ->
  AppNameId w' = AppNameId w /\ LogPrefix w' = LogPrefix w /\
  (exists b1 b2 b3 b4,
     app w' = set_IsTaskExist b4 (set_IsAPIExist b3
                (set_IsStorageExist b2 (set_IsRedisExist b1 (app w))))) /\
  (r = None -> app w' = with_presence env (app w)).
Proof.
  intros H. destruct w as [a an lp t]. destruct a. unfold with_presence.
  start_cases H.
  all: split; [reflexivity|]; split; [reflexivity|].
  all: split;
    [do 4 eexists;
     unfold set_IsTaskExist, set_IsAPIExist, set_IsStorageExist,
       set_IsRedisExist; cbn; reflexivity|].
  all: intros Hn; first [discriminate Hn | reflexivity].
Qed.

Lemma start_presence_witness :
  app (snd (start (quiet ["redis"; "tasks"]) (fresh looping)))
  = with_presence (quiet ["redis"; "tasks"]) looping.
Proof.
  apply (start_presence (quiet ["redis"; "tasks"]) (fresh looping)
           (snd (start (quiet ["redis"; "tasks"]) (fresh looping))) None);
    vm_compute; reflexivity.
Defined.

(** X7. [start] calls the manager of a subsystem only with the presence
    flag of that subsystem set, and the flag is still set when [start]
    returns -- also when the call, or a later one, has failed. *)
Theorem start_calls_flagged (env : Collaborators) (w w' : World)
    (r : option error) (c : Call) :
  start env w = (r, w') ->
  c ∈ calls (events_since w w') ->
  presence c (app w') = true.
Proof.
  intros H Hin. destruct w as [a an lp t]. destruct a.
  start_cases H.
  all: rewrite <- ?app_assoc in Hin; cbn in Hin;
       rewrite ?events_since_app in Hin; cbn in Hin.
  all: repeat (apply elem_of_cons in Hin as [Hin|Hin]; [by subst|]).
  all: by apply elem_of_nil in Hin.
Qed.

Lemma start_calls_flagged_witness :
  presence RedisLoadFromConfiguration
    (app (snd (start (failing ["redis"] RedisLoadFromConfiguration "refused")
                 (fresh init))))
  = true.
Proof.
  apply (start_calls_flagged
           (failing ["redis"] RedisLoadFromConfiguration "refused") (fresh init)
           _ (Some "refused")).
  - vm_compute; reflexivity.
  - vm_compute. repeat constructor.
Defined.

(** X8. [start] is fail-fast: a manager call or the [OnStartStorageReady]
    hook that returns an error is the last thing [start] does, and [start]
    returns that error; and [start] returns no error of its own making. *)
Theorem start_failfast (env : Collaborators) (w w' : World) (r : option error) :
  start env w = (r, w') ->
  (forall i c e, events_since w w' !! i = Some (EManager c (Some e)) ->
     r = Some e /\ length (events_since w w') = S i) /\
  (forall i h e, events_since w w' !! i = Some (EHook h (Some e)) ->
     r = Some e /\ length (events_since w w') = S i) /\
  (forall e, r = Some e ->
     (exists c, last (events_since w w') = Some (EManager c (Some e))) \/
     last (events_since w w') = Some (EHook HOnStartStorageReady (Some e))).
Proof.
  intros H. destruct w as [a an lp t]. destruct a.
  start_cases H.
  all: split; [intros i c0 e0 Hi; by_position i Hi|].
  all: split; [intros i h0 e0 Hi; by_position i Hi|].
  all: intros e0 He; simplify_eq; cbn; eauto.
Qed.

Lemma start_failfast_witness :
  fst (start (failing ["redis"; "storage"] TablesConnectAll "no schema")
         (fresh init)) = Some "no schema" /\
  length (events_since (fresh init)
            (snd (start (failing ["redis"; "storage"] TablesConnectAll "no schema")
                    (fresh init)))) = 7.
Proof.
  apply (proj1 (start_failfast
                  (failing ["redis"; "storage"] TablesConnectAll "no schema")
                  (fresh init) _ _ (surjective_pairing _))
           6 TablesConnectAll "no schema").
  vm_compute; reflexivity.
Defined.

(** X9. [OnStartStorageReady] is invoked only once the storage endpoints
    and, right after them, the tables have been connected without error,
    and before the API servers and the tasks are started. *)
Theorem start_storage_ready_after_connect (env : Collaborators) (w w' : World)
    (r r0 : option error) (i : nat) :
  start env w = (r, w') ->
  events_since w w' !! i = Some (EHook HOnStartStorageReady r0) ->
  exists j, S (S j) = i /\
    events_since w w' !! j = Some (EManager DatabasesConnectAllAtStart None) /\
    events_since w w' !! S j = Some (EManager TablesConnectAll None) /\
    started (take i (events_since w w')) `sublist_of` [Cache; Storage].
Proof.
  intros H Hi. destruct w as [a an lp t]. destruct a.
  start_cases H.
  all: rewrite <- ?app_assoc in Hi; cbn in Hi;
       rewrite ?events_since_app in Hi.
  all: by_position i Hi.
  all: eexists; split; [reflexivity|]; split; [reflexivity|];
       split; [reflexivity|]; cbn; repeat constructor.
Qed.

Lemma start_storage_ready_after_connect_witness :
  exists j, S (S j) = 5 /\
    events_since (fresh hooked) (snd (start (quiet ["storage"]) (fresh hooked)))
      !! j = Some (EManager DatabasesConnectAllAtStart None) /\
    events_since (fresh hooked) (snd (start (quiet ["storage"]) (fresh hooked)))
      !! S j = Some (EManager TablesConnectAll None) /\
    started (take 5 (events_since (fresh hooked)
                       (snd (start (quiet ["storage"]) (fresh hooked)))))
      `sublist_of` [Cache; Storage].
Proof.
  apply (start_storage_ready_after_connect (quiet ["storage"]) (fresh hooked)
           _ (fst (start (quiet ["storage"]) (fresh hooked))) None 5).
  - apply surjective_pairing.
  - vm_compute; reflexivity.
Defined.

(** ** More on [execute] *)

Lemma start_OnExecute env w r w1 :
  start env w = (r, w1) -> OnExecute (app w1) = OnExecute (app w).
Proof.
  intros H. destruct w as [a an lp t]. destruct a.
  start_cases H; reflexivity.
Qed.

Lemma Wait_invoked_app evs evs' :
  Wait_invoked (evs ++ evs') <-> Wait_invoked evs \/ Wait_invoked evs'.
Proof.
  unfold Wait_invoked. split.
  - intros [r [H|H]%elem_of_app]; eauto.
  - intros [[r H]|[r H]]; exists r; apply elem_of_app; eauto.
Qed.

Lemma start_no_Wait evs :
  Forall (fun e => from_start e = true) evs -> ~ Wait_invoked evs.
Proof.
  intros Hf [r Hin]. rewrite Forall_forall in Hf.
  by specialize (Hf _ Hin).
Qed.

Lemma Stop_no_Wait evs :
  Forall (fun e => from_Stop e = true) evs -> ~ Wait_invoked evs.
Proof.
  intros Hf [r Hin]. rewrite Forall_forall in Hf.
  by specialize (Hf _ Hin).
Qed.

Lemma not_Stopping_line e : "onExecute error (" +:+ e +:+ ")" <> "Stopping".
Proof. discriminate. Qed.

(** A single run: the rest of [execute] neither waits nor stops. *)
Lemma Starting_run_once env w r w1 :
  IsLoop (app w) = false ->
  (log_Info "Starting";; execute_run env) w = (r, w1) ->
  exists evs, trace w1 = (trace w ++ evs)%list /\
    ~ Stop_invoked evs /\ ~ Wait_invoked evs.
Proof.
  intros HL H. destruct w as [a an lp t]. destruct a. cbn in HL. subst.
  unfold execute_run in H.
  run_code H; simplify_eq; cbn; rewrite <- ?app_assoc; cbn;
    (eexists; split; [reflexivity|]); unfold Stop_invoked, Wait_invoked;
    (split; [intros Hin|intros [r' Hin]]);
    repeat (apply elem_of_cons in Hin as [Hin|Hin];
            [try discriminate Hin; injection Hin as Hin;
             by apply eq_sym, not_Stopping_line in Hin|]);
    by apply elem_of_nil in Hin.
Qed.

(** X10. When [IsLoop] is false, [execute] neither waits for the error
    group nor invokes [Stop], whatever [start] and [OnExecute] return: what
    [start] has connected stays connected. *)
Theorem execute_once_no_Stop (env : Collaborators) (w : World) :
  IsLoop (app w) = false ->
  ~ Stop_invoked (events_since w (snd (execute env w))) /\
  ~ Wait_invoked (events_since w (snd (execute env w))).
Proof.
  intros HL. rewrite execute_unfold.
  destruct (start env (record w [EWithContext])) as [r1 w1] eqn:Hs.
  destruct (start_shape _ _ _ _ Hs) as (e1 & H1 & F1 & _). cbn in H1.
  pose proof (start_IsLoop _ _ _ _ Hs) as HL1. cbn in HL1. rewrite HL in HL1.
  assert (~ Stop_invoked e1) as Hn1.
  { intros Hin. apply (events_since_extends (record w [EWithContext])) in H1.
    rewrite <- H1 in Hin. apply (start_logs _ _ _ _ _ _ Hs) in Hin.
    symmetry in Hin. by apply banner_not_Stopping in Hin. }
  pose proof (start_no_Wait _ F1) as Hw1.
  assert (~ Stop_invoked [EWithContext] /\ ~ Stop_invoked [ERootContextCancel]
          /\ ~ Wait_invoked [EWithContext] /\ ~ Wait_invoked [ERootContextCancel])
    as (Ha & Hb & Hc & Hd).
  { unfold Stop_invoked, Wait_invoked. repeat split.
    - by intros ?%list_elem_of_singleton.
    - by intros ?%list_elem_of_singleton.
    - by intros [? ?%list_elem_of_singleton].
    - by intros [? ?%list_elem_of_singleton]. }
  destruct r1 as [e|].
  - cbn [snd].
    rewrite (events_since_extends w _ ([EWithContext] ++ e1 ++ [ERootContextCancel]))
      by (cbn; rewrite H1, <- !app_assoc; reflexivity).
    rewrite !Stop_invoked_app, !Wait_invoked_app. tauto.
  - destruct ((log_Info "Starting";; execute_run env) w1) as [r w2] eqn:Hr.
    destruct (Starting_run_once _ _ _ _ HL1 Hr) as (e2 & H2 & Hn2 & Hw2).
    rewrite HL1. cbn [snd].
    rewrite (events_since_extends w _
               ([EWithContext] ++ e1 ++ e2 ++ [ERootContextCancel]))
      by (cbn; rewrite H2, H1, <- !app_assoc; reflexivity).
    rewrite !Stop_invoked_app, !Wait_invoked_app. tauto.
Qed.

Lemma execute_once_no_Stop_witness :
  ~ Stop_invoked (events_since (fresh once) (snd (execute everything (fresh once))))
  /\ ~ Wait_invoked (events_since (fresh once)
                       (snd (execute everything (fresh once)))).
Proof. apply (execute_once_no_Stop everything (fresh once)). reflexivity. Defined.

(** X11. In a loop, when [start] has succeeded and [OnExecute] returns an
    error, [execute] returns that error without waiting for the error
    group, and still invokes [Stop] before it returns. *)
Theorem execute_OnExecute_error (env : Collaborators) (w w1 : World)
    (f : list Event -> option error) (e : error) :
  start env (record w [EWithContext]) = (None, w1) ->
  IsLoop (app w) = true ->
  OnExecute (app w) = Some f ->
  f (trace w1 ++ [ELog LInfo "Starting"])%list = Some e ->
  fst (execute env w) = Some e /\
  ~ Wait_invoked (events_since w (snd (execute env w))) /\
  Stop_invoked (events_since w (snd (execute env w))).
Proof.
  intros Hs HL Hf He. rewrite execute_unfold, Hs.
  pose proof (start_IsLoop _ _ _ _ Hs) as HL1. cbn in HL1. rewrite HL in HL1.
  pose proof (start_OnExecute _ _ _ _ Hs) as Hf1. cbn in Hf1. rewrite Hf in Hf1.
  destruct (start_shape _ _ _ _ Hs) as (e1 & H1 & F1 & _). cbn in H1.
  assert ((log_Info "Starting";; execute_run env) w1
          = (Some e, record w1 [ELog LInfo "Starting"; EHook HOnExecute (Some e);
                                ELog LInfo ("onExecute error (" +:+ e +:+ ")")]))
    as ->.
  { unfold execute_run. unfold_M. cbn. rewrite Hf1. cbn. rewrite He. cbn.
    unfold record. by rewrite <- !app_assoc. }
  rewrite HL1.
  destruct (Stop env _) as [err2 w3] eqn:Ht.
  destruct (Stop_shape _ _ _ _ Ht) as (e3 & H3 & F3 & _). cbn in H3.
  destruct (Stop_extends _ _ _ _ Ht) as (e3' & H3'). cbn in H3'.
  assert (e3 = ELog LInfo "Stopping" :: e3') as ->
    by (rewrite H3 in H3'; by apply app_inv_head in H3').
  cbn [fst snd]. split; [reflexivity|].
  set (tl := match err2 with
             | Some e2 => [ELog LInfo ("Error in Stopping: (" +:+ e2 +:+ ")")]
             | None => []
             end).
  rewrite (events_since_extends w _
             ([EWithContext] ++ e1 ++
              [ELog LInfo "Starting"; EHook HOnExecute (Some e);
               ELog LInfo ("onExecute error (" +:+ e +:+ ")")] ++
              (ELog LInfo "Stopping" :: e3') ++ tl ++ [ERootContextCancel]))
    by (cbn; rewrite H3, H1, <- !app_assoc; reflexivity).
  split.
  - rewrite !Wait_invoked_app.
    pose proof (start_no_Wait _ F1). pose proof (Stop_no_Wait _ F3).
    assert (forall l, Forall (fun e => match e with EWait _ => False | _ => True end) l
                      -> ~ Wait_invoked l) as Hnw.
    { intros l Hl [r Hin]. rewrite Forall_forall in Hl. by specialize (Hl _ Hin). }
    intros [Hw|[Hw|[Hw|[Hw|[Hw|Hw]]]]]; try done.
    + revert Hw. apply Hnw. by repeat constructor.
    + revert Hw. apply Hnw. by repeat constructor.
    + revert Hw. apply Hnw. subst tl. destruct err2; by repeat constructor.
    + revert Hw. apply Hnw. by repeat constructor.
  - rewrite !Stop_invoked_app. do 3 right. left. unfold Stop_invoked. by left.
Qed.

Lemma execute_OnExecute_error_witness :
  fst (execute everything (fresh looping_OnExecute_fails)) = Some "work" /\
  ~ Wait_invoked (events_since (fresh looping_OnExecute_fails)
                    (snd (execute everything (fresh looping_OnExecute_fails)))) /\
  Stop_invoked (events_since (fresh looping_OnExecute_fails)
                  (snd (execute everything (fresh looping_OnExecute_fails)))).
Proof.
  apply (execute_OnExecute_error everything (fresh looping_OnExecute_fails)
           (snd (start everything
                   (record (fresh looping_OnExecute_fails) [EWithContext])))
           (fun _ => Some "work") "work"); vm_compute; reflexivity.
Defined.

Ltac not_member Hin :=
  repeat (apply elem_of_cons in Hin as [Hin|Hin]; [discriminate Hin|]);
  by apply elem_of_nil in Hin.

(** The rest of [execute] in a loop whose [OnExecute] passes: up to the
    wait, the wait, and at most a log line after it. *)
Lemma Starting_run_loop env w :
  IsLoop (app w) = true ->
  (forall f, OnExecute (app w) = Some f ->
             f (trace w ++ [ELog LInfo "Starting"])%list = None) ->
  exists mid tl,
    trace (snd ((log_Info "Starting";; execute_run env) w))
    = (trace w ++ mid
         ++ EWait (fst ((log_Info "Starting";; execute_run env) w)) :: tl)%list /\
    ~ Wait_invoked mid /\ ~ Stop_invoked mid /\ ~ Wait_invoked tl.
Proof.
  intros HL Hf. destruct w as [a an lp t]. destruct a. cbn in HL, Hf. subst.
  unfold execute_run. unfold_M. cbn.
  destruct OnExecute0 as [f|]; cbn; [rewrite (Hf f eq_refl); cbn|];
    destruct (Wait env _) as [e|]; cbn; rewrite <- ?app_assoc; cbn.
  1: exists [ELog LInfo "Starting"; EHook HOnExecute None; ELog LInfo "Waiting..."],
       [ELog LInfo ("Exit reason: " +:+ e)].
  2: exists [ELog LInfo "Starting"; EHook HOnExecute None; ELog LInfo "Waiting..."],
       [].
  3: exists [ELog LInfo "Starting"; ELog LInfo "Waiting..."],
       [ELog LInfo ("Exit reason: " +:+ e)].
  4: exists [ELog LInfo "Starting"; ELog LInfo "Waiting..."], [].
  all: split; [reflexivity|].
  all: unfold Wait_invoked, Stop_invoked.
  all: split; [intros [r Hin]; not_member Hin|].
  all: split; [intros Hin; not_member Hin|].
  all: intros [r Hin]; not_member Hin.
Qed.

(** X12. In a loop, when [start] has succeeded and [OnExecute] is not set
    or passes, [execute] waits for the error group exactly once, returns
    what [Wait] answered, and invokes [Stop] after that and not before. *)
Theorem execute_loop_returns_Wait (env : Collaborators) (w w1 : World) :
  start env (record w [EWithContext]) = (None, w1) ->
  IsLoop (app w) = true ->
  (forall f, OnExecute (app w) = Some f ->
             f (trace w1 ++ [ELog LInfo "Starting"])%list = None) ->
  exists pre post,
    events_since w (snd (execute env w))
    = (pre ++ EWait (fst (execute env w)) :: post)%list /\
    ~ Wait_invoked pre /\ ~ Wait_invoked post /\
    ~ Stop_invoked pre /\ Stop_invoked post.
Proof.
  intros Hs HL Hf. rewrite execute_unfold, Hs.
  pose proof (start_IsLoop _ _ _ _ Hs) as HL1. cbn in HL1. rewrite HL in HL1.
  pose proof (start_OnExecute _ _ _ _ Hs) as Hf1. cbn in Hf1.
  rewrite <- Hf1 in Hf.
  destruct (start_shape _ _ _ _ Hs) as (e1 & H1 & F1 & _). cbn in H1.
  assert (~ Stop_invoked e1) as Hn1.
  { intros Hin. apply (events_since_extends (record w [EWithContext])) in H1.
    rewrite <- H1 in Hin. apply (start_logs _ _ _ _ _ _ Hs) in Hin.
    symmetry in Hin. by apply banner_not_Stopping in Hin. }
  destruct (Starting_run_loop env w1 HL1 Hf) as (mid & tl & H2 & Wm & Sm & Wt).
  destruct ((log_Info "Starting";; execute_run env) w1) as [r w2].
  cbn [fst snd] in H2. rewrite HL1.
  destruct (Stop env w2) as [err2 w3] eqn:Ht.
  destruct (Stop_shape _ _ _ _ Ht) as (e3 & H3 & F3 & _).
  destruct (Stop_extends _ _ _ _ Ht) as (e3' & H3').
  assert (e3 = ELog LInfo "Stopping" :: e3') as ->
    by (rewrite H3 in H3'; by apply app_inv_head in H3').
  cbn [fst snd].
  set (tl' := match err2 with
              | Some e2 => [ELog LInfo ("Error in Stopping: (" +:+ e2 +:+ ")")]
              | None => []
              end).
  assert (~ Wait_invoked tl') as Wt'.
  { subst tl'. intros [r' Hin]. destruct err2; not_member Hin. }
  exists ([EWithContext] ++ e1 ++ mid)%list,
    (tl ++ (ELog LInfo "Stopping" :: e3') ++ tl' ++ [ERootContextCancel])%list.
  split.
  { apply events_since_extends. cbn. rewrite H3, H2, H1.
    repeat (progress (rewrite <- ?app_assoc; cbn [app])). reflexivity. }
  pose proof (start_no_Wait _ F1) as W1. pose proof (Stop_no_Wait _ F3) as W3.
  assert (~ Wait_invoked [EWithContext] /\ ~ Wait_invoked [ERootContextCancel]
          /\ ~ Stop_invoked [EWithContext]) as (Wa & Wb & Sa).
  { unfold Wait_invoked, Stop_invoked. repeat split.
    - intros [r' Hin]. not_member Hin.
    - intros [r' Hin]. not_member Hin.
    - intros Hin. not_member Hin. }
  rewrite !Wait_invoked_app, !Stop_invoked_app.
  repeat split; try tauto.
  right. left. unfold Stop_invoked. by left.
Qed.

Lemma execute_loop_returns_Wait_witness :
  exists pre post,
    events_since (fresh looping) (snd (execute everything (fresh looping)))
    = (pre ++ EWait (fst (execute everything (fresh looping))) :: post)%list /\
    ~ Wait_invoked pre /\ ~ Wait_invoked post /\
    ~ Stop_invoked pre /\ Stop_invoked post.
Proof.
  apply (execute_loop_returns_Wait everything (fresh looping)
           (snd (start everything (record (fresh looping) [EWithContext])))).
  - vm_compute; reflexivity.
  - reflexivity.
  - intros f Hf. discriminate Hf.
Defined.

(* ===================================================================== *)
(** * Further properties of package [utils] *)
(* ===================================================================== *)

(** ** More on [strings.Trim] *)

Lemma map_bytes_empty f s : map_bytes f s = "" -> s = "".
Proof. by destruct s. Qed.

Lemma trimLeftByte_map f s :
  (forall c, Ascii.eqb quote (f c) = Ascii.eqb quote c) ->
  trimLeftByte (map_bytes f s) quote = map_bytes f (trimLeftByte s quote).
Proof.
  intros Hf. induction s as [|c s IH]; [reflexivity|].
  cbn [map_bytes trimLeftByte]. rewrite !eqb_quote_sym, Hf.
  by destruct (Ascii.eqb quote c).
Qed.

Lemma trimRightByte_map f s :
  (forall c, Ascii.eqb quote (f c) = Ascii.eqb quote c) ->
  trimRightByte (map_bytes f s) quote = map_bytes f (trimRightByte s quote).
Proof.
  intros Hf. induction s as [|c s IH]; [reflexivity|].
  cbn [map_bytes trimRightByte]. rewrite IH.
  destruct (trimRightByte s quote) as [|a t]; cbn [map_bytes].
  - rewrite !eqb_quote_sym, Hf. by destruct (Ascii.eqb quote c).
  - reflexivity.
Qed.

Lemma Trim_map f s :
  (forall c, Ascii.eqb quote (f c) = Ascii.eqb quote c) ->
  Trim (map_bytes f s) quote = map_bytes f (Trim s quote).
Proof.
  intros Hf. unfold Trim. by rewrite trimRightByte_map, trimLeftByte_map.
Qed.

Lemma trimRightByte_snoc s :
  trimRightByte (s +:+ String quote "") quote = trimRightByte s quote.
Proof.
  induction s as [|c s IH]; [reflexivity|].
  change (String c s +:+ String quote "") with (String c (s +:+ String quote "")).
  cbn [trimRightByte]. by rewrite IH.
Qed.

(** Trimming an identifier in quotes is trimming the identifier. *)
Lemma Trim_in_quotes s :
  Trim (String quote s +:+ String quote "") quote = Trim s quote.
Proof.
  unfold Trim.
  change (String quote s +:+ String quote "")
    with (String quote (s +:+ String quote "")).
  cbn [trimRightByte]. rewrite trimRightByte_snoc.
  by destruct (trimRightByte s quote).
Qed.

Lemma isASCII_trimLeftByte s c : isASCII s = true -> isASCII (trimLeftByte s c) = true.
Proof.
  unfold isASCII. induction s as [|a s IH]; [done|].
  cbn [trimLeftByte]. destruct (Ascii.eqb a c); [|done].
  cbn [list_ascii_of_string forallb]. intros [_ Hs]%andb_prop. by apply IH.
Qed.

Lemma isASCII_trimRightByte s c : isASCII s = true -> isASCII (trimRightByte s c) = true.
Proof.
  unfold isASCII. induction s as [|a s IH]; [done|].
  cbn [trimRightByte list_ascii_of_string forallb].
  intros [Ha Hs]%andb_prop. specialize (IH Hs).
  destruct (trimRightByte s c) as [|b t].
  - destruct (Ascii.eqb a c); [done|]. cbn. by rewrite Ha.
  - cbn [list_ascii_of_string forallb] in *. by rewrite Ha, IH.
Qed.

Lemma isASCII_Trim s c : isASCII s = true -> isASCII (Trim s c) = true.
Proof. intros H. by apply isASCII_trimLeftByte, isASCII_trimRightByte. Qed.

Lemma trimLeftByte_idem s c :
  trimLeftByte (trimLeftByte s c) c = trimLeftByte s c.
Proof.
  induction s as [|a s IH]; [reflexivity|].
  cbn [trimLeftByte]. destruct (Ascii.eqb a c) eqn:Ha; [exact IH|].
  cbn [trimLeftByte]. by rewrite Ha.
Qed.

Lemma trimRightByte_idem s c :
  trimRightByte (trimRightByte s c) c = trimRightByte s c.
Proof.
  induction s as [|a s IH]; [reflexivity|].
  cbn [trimRightByte]. destruct (trimRightByte s c) as [|b t] eqn:Ht.
  - destruct (Ascii.eqb a c) eqn:Ha; [reflexivity|].
    cbn [trimRightByte]. by rewrite Ha.
  - cbn [trimRightByte]. cbn [trimRightByte] in IH. by rewrite IH.
Qed.

(** Trimming on the left keeps a string free of the byte on the right. *)
Lemma trimRightByte_trimLeftByte s c :
  trimRightByte s c = s -> trimRightByte (trimLeftByte s c) c = trimLeftByte s c.
Proof.
  induction s as [|a s IH]; [reflexivity|].
  intros H. cbn [trimLeftByte]. destruct (Ascii.eqb a c) eqn:Ha; [|exact H].
  apply IH. cbn [trimRightByte] in H.
  destruct (trimRightByte s c) as [|b t]; [by rewrite Ha in H|].
  by injection H.
Qed.

Lemma Trim_idem s c : Trim (Trim s c) c = Trim s c.
Proof.
  unfold Trim.
  rewrite (trimRightByte_trimLeftByte (trimRightByte s c) c)
    by apply trimRightByte_idem.
  apply trimLeftByte_idem.
Qed.

Lemma map_bytes_lower_upper s :
  map_bytes lower_byte (map_bytes upper_byte s) = map_bytes lower_byte s.
Proof.
  induction s as [|c s IH]; cbn [map_bytes]; [done|]. rewrite IH.
  f_equal. each_byte c.
Qed.

Lemma DeformatIdentifier_ascii s d :
  isASCII s = true ->
  DeformatIdentifier s d = map_bytes lower_byte (Trim s quote).
Proof.
  intros H. unfold DeformatIdentifier.
  by rewrite ToLower_ascii by (by apply isASCII_Trim).
Qed.

(** ** More on [FormatIdentifier] and [DeformatIdentifier] *)

(** X13. For every identifier of ASCII bytes -- with or without double
    quotes in it -- and every driver name, deformatting the formatted
    identifier gives what deformatting the identifier itself gives. *)
Theorem Deformat_Format_is_Deformat (identifier driverName : string) :
  isASCII identifier = true ->
  DeformatIdentifier (FormatIdentifier identifier driverName) driverName
  = DeformatIdentifier identifier driverName.
Proof.
  intros Ha. rewrite (DeformatIdentifier_ascii identifier _ Ha).
  unfold DeformatIdentifier, FormatIdentifier.
  rewrite (ToLower_ascii identifier Ha).
  pose proof (isASCII_lower identifier Ha) as Hal.
  destruct (_ || _).
  - rewrite (ToUpper_ascii _ Hal).
    rewrite !Trim_map by (apply upper_byte_quote || apply lower_byte_quote).
    rewrite ToLower_ascii
      by (by apply isASCII_upper, isASCII_lower, isASCII_Trim).
    apply map_bytes_lower_upper_lower.
  - rewrite Trim_in_quotes, Trim_map by apply lower_byte_quote.
    rewrite ToLower_ascii by (by apply isASCII_lower, isASCII_Trim).
    apply map_bytes_lower_idem.
Qed.

Lemma Deformat_Format_is_Deformat_witness :
  DeformatIdentifier (FormatIdentifier (String quote "Order_ID") "mysql") "mysql"
  = DeformatIdentifier (String quote "Order_ID") "mysql".
Proof. apply Deformat_Format_is_Deformat. reflexivity. Defined.

(** X14. On identifiers of ASCII bytes [DeformatIdentifier] is idempotent,
    whatever the driver names. *)
Theorem DeformatIdentifier_idempotent (identifier d d' : string) :
  isASCII identifier = true ->
  DeformatIdentifier (DeformatIdentifier identifier d) d'
  = DeformatIdentifier identifier d.
Proof.
  intros Ha. rewrite (DeformatIdentifier_ascii identifier d Ha).
  rewrite DeformatIdentifier_ascii
    by (by apply isASCII_lower, isASCII_Trim).
  rewrite Trim_map by apply lower_byte_quote.
  by rewrite Trim_idem, map_bytes_lower_idem.
Qed.

Lemma DeformatIdentifier_idempotent_witness :
  DeformatIdentifier (DeformatIdentifier (String quote "Order_ID") "mysql") "oracle"
  = DeformatIdentifier (String quote "Order_ID") "mysql".
Proof. apply DeformatIdentifier_idempotent. reflexivity. Defined.

(** X15. [FormatIdentifier] ignores the case of an identifier of ASCII
    bytes: the identifier in upper case is formatted as the identifier. *)
Theorem FormatIdentifier_ignores_case (identifier driverName : string) :
  isASCII identifier = true ->
  FormatIdentifier (ToUpper identifier) driverName
  = FormatIdentifier identifier driverName.
Proof.
  intros Ha. unfold FormatIdentifier.
  rewrite (ToUpper_ascii _ Ha).
  rewrite (ToLower_ascii _ (isASCII_upper _ Ha)), (ToLower_ascii _ Ha).
  by rewrite map_bytes_lower_upper.
Qed.

Lemma FormatIdentifier_ignores_case_witness :
  FormatIdentifier (ToUpper "Order_id") "postgres"
  = FormatIdentifier "Order_id" "postgres".
Proof. apply FormatIdentifier_ignores_case. reflexivity. Defined.







(** ** [DeformatKeys] *)

Lemma DeformatKeys_snoc kv d order k :
  DeformatKeys kv d (order ++ [k])
  = match kv !! k with
    | Some v => <[DeformatIdentifier k d := v]> (DeformatKeys kv d order)
    | None => DeformatKeys kv d order
    end.
Proof. unfold DeformatKeys. by rewrite foldl_snoc. Qed.

(** X17. The map that [DeformatKeys] returns holds exactly the deformatted
    keys of the map it is given, each with the value of a key that
    deformats to it. *)
Theorem DeformatKeys_entries (kv : gmap string any) (driverName : string)
    (order : list string) (k' : string) :
  order ≡ₚ keys kv ->
  (forall v, DeformatKeys kv driverName order !! k' = Some v ->
     exists k, kv !! k = Some v /\ DeformatIdentifier k driverName = k') /\
  (is_Some (DeformatKeys kv driverName order !! k') <->
   exists k, is_Some (kv !! k) /\ DeformatIdentifier k driverName = k').
Proof.
  intros Hperm.
  assert (forall l v, DeformatKeys kv driverName l !! k' = Some v ->
            exists k, k ∈ l /\ kv !! k = Some v
                      /\ DeformatIdentifier k driverName = k') as Hsound.
  { induction l as [|k l IH] using rev_ind; intros v.
    - unfold DeformatKeys. cbn. by rewrite lookup_empty.
    - rewrite DeformatKeys_snoc. destruct (kv !! k) as [vk|] eqn:Hk.
      + destruct (decide (DeformatIdentifier k driverName = k')) as [<-|Hne].
        * rewrite lookup_insert_eq. intros [= <-]. exists k.
          split; [apply elem_of_app; right; by left|done].
        * rewrite lookup_insert_ne by done. intros (k0 & ? & ?)%IH.
          exists k0. split; [apply elem_of_app; by left|done].
      + intros (k0 & ? & ?)%IH.
        exists k0. split; [apply elem_of_app; by left|done]. }
  assert (forall l k, k ∈ l -> is_Some (kv !! k) ->
            is_Some (DeformatKeys kv driverName l
                       !! DeformatIdentifier k driverName)) as Hcomplete.
  { induction l as [|k0 l IH] using rev_ind; intros k Hin Hk.
    - by apply elem_of_nil in Hin.
    - rewrite DeformatKeys_snoc. apply elem_of_app in Hin as [Hin|Hin].
      + specialize (IH k Hin Hk). destruct (kv !! k0); [|done].
        destruct (decide (DeformatIdentifier k0 driverName
                          = DeformatIdentifier k driverName)) as [->|Hne].
        * rewrite lookup_insert_eq. eauto.
        * by rewrite lookup_insert_ne.
      + apply list_elem_of_singleton in Hin as ->.
        destruct Hk as [v ->]. rewrite lookup_insert_eq. eauto. }
  split.
  - intros v (k & _ & ? & ?)%Hsound. eauto.
  - split.
    + intros [v (k & _ & Hk & ?)%Hsound]. exists k. split; [by eexists|done].
    + intros (k & Hk & <-). apply Hcomplete; [|done].
      rewrite Hperm. destruct Hk as [v Hv]. unfold keys.
      apply list_elem_of_fmap. exists (k, v). split; [done|].
      by apply elem_of_map_to_list.
Qed.

Lemma DeformatKeys_entries_witness :
  is_Some (DeformatKeys sample_row "mysql" (keys sample_row) !! "active") <->
  exists k, is_Some (sample_row !! k) /\ DeformatIdentifier k "mysql" = "active".
Proof.
  apply (DeformatKeys_entries sample_row "mysql" (keys sample_row) "active").
  reflexivity.
Defined.

(** X18. When several keys deformat to the same key, [DeformatKeys] keeps
    the value of the one the range reaches last; so a key that no later key
    clashes with comes through with its value. *)
Theorem DeformatKeys_last_wins (kv : gmap string any) (driverName : string)
    (pre post : list string) (k : string) (v : any) :
  kv !! k = Some v ->
  (forall k2, k2 ∈ post -> is_Some (kv !! k2) ->
     DeformatIdentifier k2 driverName <> DeformatIdentifier k driverName) ->
  DeformatKeys kv driverName (pre ++ k :: post)
    !! DeformatIdentifier k driverName = Some v.
Proof.
  intros Hk. induction post as [|k2 post IH] using rev_ind; intros Hpost.
  - rewrite DeformatKeys_snoc, Hk. apply lookup_insert_eq.
  - replace (pre ++ k :: post ++ [k2])%list
      with ((pre ++ k :: post) ++ [k2])%list by (by rewrite <- app_assoc).
    rewrite DeformatKeys_snoc.
    assert (forall k3, k3 ∈ post -> is_Some (kv !! k3) ->
              DeformatIdentifier k3 driverName <> DeformatIdentifier k driverName)
      as Hpost' by (intros k3 Hin; apply Hpost, elem_of_app; by left).
    specialize (IH Hpost').
    destruct (kv !! k2) as [v2|] eqn:Hk2; [|exact IH].
    rewrite lookup_insert_ne; [exact IH|].
    apply Hpost; [apply elem_of_app; right; by left|by eexists].
Qed.

Lemma DeformatKeys_last_wins_witness :
  DeformatKeys clashing_row "mysql" ["id"; "ID"] !! DeformatIdentifier "ID" "mysql"
  = Some (VInt 1) /\
  DeformatKeys clashing_row "mysql" ["ID"; "id"] !! DeformatIdentifier "id" "mysql"
  = Some (VInt 2).
Proof.
  split.
  - apply (DeformatKeys_last_wins clashing_row "mysql" ["id"] [] "ID" (VInt 1));
      [reflexivity|]. intros k2 Hin. by apply elem_of_nil in Hin.
  - apply (DeformatKeys_last_wins clashing_row "mysql" ["ID"] [] "id" (VInt 2));
      [reflexivity|]. intros k2 Hin. by apply elem_of_nil in Hin.
Defined.

(** ** The results of [PrepareArrayArgs] *)

Lemma prepared_bool_as_int d v :
  prepared d (if String.eqb d "oracle" || String.eqb d "sqlserver"
              then bool_as_int v else v) = prepared d v.
Proof.
  unfold prepared. destruct (_ || _); [|done]. apply bool_as_int_idem.
Qed.

Lemma PrepareArrayArgs_body_results d st k v :
  keyValues st !! k = Some v ->
  let st' := PrepareArrayArgs_body d st k in
  let sep := if String.eqb (fieldNames st) "" then "" else ", " in
  fieldArgs st' = (fieldArgs st ++ [Named (FormatIdentifier k d) (prepared d v)])%list /\
  fieldNames st' = fieldNames st +:+ sep +:+ FormatIdentifier k d /\
  fieldValues st' = fieldValues st +:+ sep +:+ ":" +:+ FormatIdentifier k d.
Proof.
  intros Hk. unfold PrepareArrayArgs_body, prepared. rewrite Hk. cbn.
  split; [|done]. f_equal. f_equal. f_equal.
  destruct v as [|b| | |]; cbn; rewrite ?Hk; try by destruct (_ || _).
  destruct (_ || _); cbn; [|by rewrite Hk].
  rewrite lookup_insert_eq. by destruct b.
Qed.

Lemma keys_present kv order k :
  order ≡ₚ keys kv -> k ∈ order -> is_Some (kv !! k).
Proof.
  intros Hperm Hin. rewrite Hperm in Hin. unfold keys in Hin.
  apply list_elem_of_fmap in Hin as ([k0 v] & -> & Hin).
  apply elem_of_map_to_list in Hin. by eexists.
Qed.

(** The value found at [k] after the loop has run over [l]. *)
Lemma PrepareArrayArgs_loop_value d kv l k v :
  kv !! k = Some v ->
  exists v', keyValues (foldl (PrepareArrayArgs_body d)
                          (mkPrepareState kv "" "" []) l) !! k = Some v' /\
             prepared d v' = prepared d v.
Proof.
  intros Hk. rewrite PrepareArrayArgs_loop_lookup. cbn [keyValues]. rewrite Hk.
  unfold prepared. destruct (_ || _) eqn:Hd; cbn [andb].
  - case_bool_decide; eexists; (split; [reflexivity|]);
      [apply bool_as_int_idem|reflexivity].
  - eexists; split; reflexivity.
Qed.

(** X19. [PrepareArrayArgs] returns one named argument for each key of the
    map, in the order of the range: its name is the formatted key and its
    value the value of the key, a boolean replaced by 1 or 0 under "oracle"
    and "sqlserver".  Under these two drivers no argument is a boolean. *)
Theorem PrepareArrayArgs_fieldArgs (kv : gmap string any) (driverName : string)
    (order : list string) :
  order ≡ₚ keys kv ->
  fieldArgs (PrepareArrayArgs kv driverName order)
  = (fun k => Named (FormatIdentifier k driverName)
                    (prepared driverName (default VNil (kv !! k)))) <$> order /\
  length (fieldArgs (PrepareArrayArgs kv driverName order)) = size kv /\
  (driverName = "oracle" \/ driverName = "sqlserver" ->
   forall a b, a ∈ fieldArgs (PrepareArrayArgs kv driverName order) ->
               Value a <> VBool b).
Proof.
  intros Hperm.
  assert (forall l, (forall k, k ∈ l -> is_Some (kv !! k)) ->
            fieldArgs (foldl (PrepareArrayArgs_body driverName)
                         (mkPrepareState kv "" "" []) l)
            = (fun k => Named (FormatIdentifier k driverName)
                          (prepared driverName (default VNil (kv !! k)))) <$> l)
    as Hloop.
  { induction l as [|k l IH] using rev_ind; intros Hl; [reflexivity|].
    rewrite foldl_snoc, fmap_app. cbn [fmap list_fmap].
    destruct (Hl k) as [v Hv]; [apply elem_of_app; right; by left|].
    destruct (PrepareArrayArgs_loop_value driverName kv l k v Hv)
      as (v' & Hv' & Hp).
    destruct (PrepareArrayArgs_body_results driverName _ k v' Hv') as (-> & _).
    rewrite IH by (intros k0 Hin; apply Hl, elem_of_app; by left).
    by rewrite Hp, Hv. }
  assert (fieldArgs (PrepareArrayArgs kv driverName order)
          = (fun k => Named (FormatIdentifier k driverName)
                        (prepared driverName (default VNil (kv !! k)))) <$> order)
    as Hargs by (apply Hloop; intros k; by apply keys_present).
  split; [exact Hargs|]. split.
  - rewrite Hargs, length_fmap, Hperm. unfold keys.
    by rewrite length_fmap, length_map_to_list.
  - intros Hd a b Hin. rewrite Hargs in Hin.
    apply list_elem_of_fmap in Hin as (k & -> & _). cbn [Value].
    unfold prepared. replace (_ || _) with true
      by (destruct Hd as [-> | ->]; reflexivity).
    by destruct (default VNil (kv !! k)) as [|[]| | |].
Qed.

Lemma PrepareArrayArgs_fieldArgs_witness :
  length (fieldArgs (PrepareArrayArgs sample_row "oracle" (keys sample_row))) = 3 /\
  (forall a b,
     a ∈ fieldArgs (PrepareArrayArgs sample_row "oracle" (keys sample_row)) ->
     Value a <> VBool b).
Proof.
  destruct (PrepareArrayArgs_fieldArgs sample_row "oracle" (keys sample_row)
              (reflexivity _)) as (_ & H2 & H3).
  split; [exact H2|]. apply H3. by left.
Defined.

Lemma append_assoc_string s t u : (s +:+ t) +:+ u = s +:+ (t +:+ u).
Proof.
  induction s as [|c s IH]; [reflexivity|].
  change (String c s +:+ t) with (String c (s +:+ t)).
  change (String c (s +:+ t) +:+ u) with (String c ((s +:+ t) +:+ u)).
  change (String c s +:+ (t +:+ u)) with (String c (s +:+ (t +:+ u))).
  by rewrite IH.
Qed.

Lemma append_empty_inv s t : s +:+ t = "" -> s = "".
Proof. by destruct s. Qed.

Lemma join_snoc sep l x :
  l <> [] -> join sep (l ++ [x]) = join sep l +:+ sep +:+ x.
Proof.
  induction l as [|y l IH]; [done|]. intros _.
  destruct l as [|z l]; [reflexivity|].
  change (join sep ((y :: z :: l) ++ [x]))
    with (y +:+ sep +:+ join sep ((z :: l) ++ [x])).
  rewrite IH by done.
  change (join sep (y :: z :: l)) with (y +:+ sep +:+ join sep (z :: l)).
  by rewrite !append_assoc_string.
Qed.

Lemma join_nonempty sep l :
  l <> [] -> (forall x, x ∈ l -> x <> "") -> join sep l <> "".
Proof.
  destruct l as [|x l]; [done|]. intros _ Hne.
  assert (x <> "") as Hx by (apply Hne; by left).
  destruct l; cbn [join]; [done|]. by intros ?%append_empty_inv.
Qed.

(** X20. When no key formats to the empty name -- as under every driver
    but "oracle" and "db2", whose names are not quoted -- [PrepareArrayArgs]
    returns the formatted names separated by ", " and, in the same order,
    the placeholders: each name after a colon, separated by ", ". *)
Theorem PrepareArrayArgs_names (kv : gmap string any) (driverName : string)
    (order : list string) :
  order ≡ₚ keys kv ->
  (forall k, k ∈ order -> FormatIdentifier k driverName <> "") ->
  fieldNames (PrepareArrayArgs kv driverName order)
  = join ", " ((fun k => FormatIdentifier k driverName) <$> order) /\
  fieldValues (PrepareArrayArgs kv driverName order)
  = join ", " ((fun k => ":" +:+ FormatIdentifier k driverName) <$> order).
Proof.
  intros Hperm Hne. unfold PrepareArrayArgs.
  assert (forall k, k ∈ order -> is_Some (kv !! k)) as Hpres
    by (intros k; by apply keys_present).
  clear Hperm. revert Hne Hpres.
  induction order as [|k l IH] using rev_ind; intros Hne Hpres; [done|].
  rewrite foldl_snoc, !fmap_app. cbn [fmap list_fmap].
  destruct (Hpres k) as [v Hv]; [apply elem_of_app; right; by left|].
  destruct (PrepareArrayArgs_loop_value driverName kv l k v Hv) as (v' & Hv' & _).
  destruct (PrepareArrayArgs_body_results driverName _ k v' Hv') as (_ & -> & ->).
  destruct IH as [IHn IHv].
  { intros k0 Hin. apply Hne, elem_of_app. by left. }
  { intros k0 Hin. apply Hpres, elem_of_app. by left. }
  rewrite IHn, IHv. destruct l as [|k1 l]; [done|].
  assert (join ", " ((fun k => FormatIdentifier k driverName) <$> k1 :: l) <> "")
    as Hj.
  { apply join_nonempty; [done|]. intros x (k0 & -> & Hin)%list_elem_of_fmap.
    apply Hne, elem_of_app. by left. }
  apply String.eqb_neq in Hj. rewrite Hj.
  by rewrite !join_snoc by done.
Qed.

Lemma PrepareArrayArgs_names_witness :
  fieldNames (PrepareArrayArgs sample_row "mysql" (keys sample_row))
  = join ", " ((fun k => FormatIdentifier k "mysql") <$> keys sample_row) /\
  fieldValues (PrepareArrayArgs sample_row "mysql" (keys sample_row))
  = join ", " ((fun k => ":" +:+ FormatIdentifier k "mysql") <$> keys sample_row).
Proof.
  apply (PrepareArrayArgs_names sample_row "mysql" (keys sample_row));
    [reflexivity|].
  intros k Hk. discriminate.
Defined.

(** X21. The separator is decided by the names alone: under "oracle" and
    "db2" the empty key formats to the empty name, and when the range
    reaches it first the placeholder of the next key follows its own
    without a separator. *)
Theorem PrepareArrayArgs_empty_key_first (driverName k : string) (v0 v : any) :
  driverName = "oracle" \/ driverName = "db2" ->
  k <> "" ->
  let r := PrepareArrayArgs (<["" := v0]> {[k := v]}) driverName [""; k] in
  fieldNames r = FormatIdentifier k driverName /\
  fieldValues r = ":" +:+ ":" +:+ FormatIdentifier k driverName /\
  length (fieldArgs r) = 2.
Proof.
  intros Hd Hk. unfold PrepareArrayArgs. cbn [foldl].
  assert (FormatIdentifier "" driverName = "") as He
    by (destruct Hd as [-> | ->]; reflexivity).
  set (st0 := mkPrepareState (<["" := v0]> {[k := v]}) "" "" []).
  assert (keyValues st0 !! "" = Some v0) as H0 by apply lookup_insert_eq.
  destruct (PrepareArrayArgs_body_results driverName st0 "" v0 H0)
    as (A1 & N1 & V1).
  assert (keyValues (PrepareArrayArgs_body driverName st0 "") !! k = Some v)
    as H1.
  { rewrite PrepareArrayArgs_body_lookup.
    rewrite (bool_decide_eq_false_2 ("" = k)) by done.
    rewrite andb_false_r. subst st0. cbn [keyValues].
    rewrite lookup_insert_ne by done. apply lookup_singleton_eq. }
  destruct (PrepareArrayArgs_body_results driverName _ k v H1)
    as (A2 & N2 & V2).
  rewrite N2, V2, A2, N1, V1, A1, He. subst st0.
  cbn [fieldNames fieldValues fieldArgs]. done.
Qed.

Lemma PrepareArrayArgs_empty_key_first_witness :
  fieldValues (PrepareArrayArgs (<["" := VInt 1]> {["n" := VInt 7]}) "oracle" [""; "n"])
  = "::N".
Proof.
  apply (PrepareArrayArgs_empty_key_first "oracle" "n" (VInt 1) (VInt 7));
    [by left|discriminate].
Defined.

(** ** The database helpers *)

(** X22. [DropDatabase] kills the connections first and drops the database
    only when that succeeded.  When the kill statement fails, no DROP is
    executed and the error of the kill, wrapped, is returned and logged
    twice: as an error and, by the deferred function, as a warning.  When
    it succeeds, the DROP is executed next and its error, if any, is
    returned as it is. *)
Theorem DropDatabase_kills_first (db : DB) (dbName : string) (t : list DbEvent) :
  exists evs,
    snd (DropDatabase db dbName t) = (t ++ evs)%list /\
    (forall e, db t (kill_query dbName) = Some e ->
       fst (DropDatabase db dbName t)
       = Some (wrap "failed to kill connections" e) /\
       evs = [EExec (kill_query dbName) (Some e);
              EErrorf ("Failed to kill connections: "
                       +:+ wrap "failed to kill connections" e);
              EWarnf ("Error drop database " +:+ dbName +:+ ":"
                      +:+ wrap "failed to kill connections" e)]) /\
    (db t (kill_query dbName) = None ->
       executed evs = [kill_query dbName; drop_query dbName] /\
       fst (DropDatabase db dbName t)
       = db (t ++ [EExec (kill_query dbName) None])%list (drop_query dbName)).
Proof.
  unfold DropDatabase, KillConnections, Exec, DropDatabase_deferred.
  destruct (db t (kill_query dbName)) as [e|] eqn:Hk; cbn.
  - eexists. rewrite <- !app_assoc. cbn. split; [reflexivity|].
    split; [by intros ? [= <-]|done].
  - destruct (db _ (drop_query dbName)) as [e|] eqn:Hd; cbn;
      rewrite <- ?app_assoc; cbn; (eexists; split; [reflexivity|]);
      (split; [done|]); by intros _.
Qed.

Lemma DropDatabase_kills_first_witness :
  fst (DropDatabase (refusing (kill_query "shop") "denied") "shop" [])
  = Some "failed to kill connections: denied" /\
  executed (snd (DropDatabase (refusing (kill_query "shop") "denied") "shop" []))
  = [kill_query "shop"].
Proof.
  destruct (DropDatabase_kills_first (refusing (kill_query "shop") "denied")
              "shop" []) as (evs & Ht & Hfail & _).
  destruct (Hfail "denied" ltac:(vm_compute; reflexivity)) as [Hr ->].
  split; [exact Hr|]. rewrite Ht. reflexivity.
Defined.

(** X23. [DropDatabase] logs its warning exactly when it returns an error,
    and the warning names the database and carries that error; this holds
    on every path, as the deferred function sees the value returned. *)
Theorem DropDatabase_warns_on_error (db : DB) (dbName : string) (t : list DbEvent) :
  exists evs,
    snd (DropDatabase db dbName t) = (t ++ evs)%list /\
    warnings evs
    = match fst (DropDatabase db dbName t) with
      | Some e => ["Error drop database " +:+ dbName +:+ ":" +:+ e]
      | None => []
      end /\
    (fst (DropDatabase db dbName t) = None <->
     db t (kill_query dbName) = None /\
     db (t ++ [EExec (kill_query dbName) None])%list (drop_query dbName) = None).
Proof.
  unfold DropDatabase, KillConnections, Exec, DropDatabase_deferred.
  destruct (db t (kill_query dbName)) as [e|] eqn:Hk; cbn.
  - eexists. rewrite <- !app_assoc. cbn. split; [reflexivity|].
    split; [reflexivity|]. split; [done|]. by intros [? _].
  - destruct (db _ (drop_query dbName)) as [e|] eqn:Hd; cbn;
      rewrite <- ?app_assoc; cbn; (eexists; split; [reflexivity|]);
      (split; [reflexivity|]); split; try done. by intros [_ ?].
Qed.
